(** * generate_repo_info.py: the README metadata extractor of skill-repo-tools

    A shallow embedding of the pure part of [generate_repo_info.py]
    (section splitting, fuzzy heading lookup, whitespace and sentence
    normalisation, example extraction, title resolution, assembly of the
    summary) together with the properties stated about it.

    Conventions of the embedding.
    - A Python [str] is a list of code points, each an [N].  On the 7-bit
      range the character predicates and case mappings ([str.isspace],
      [str.isalnum], [str.upper], [str.lower], [str.title]) are written
      out.  From 128 on they are what the Unicode character database says:
      the database is not part of the program, so it is a parameter, the
      class [unicode], and every property holds whatever the database is;
      [latin1] has its entries up to 255.
    - A Python exception is a value [Raise e] of the type [result].
    - An [OrderedDict] is an association list in iteration order whose keys
      are pairwise distinct.
    - The float returned by [SequenceMatcher.ratio] is the correctly rounded
      quotient of two small integers and is only ever compared with other
      such quotients and with the literals 0.3, 0.5 and 0.9; on texts of
      fewer than 2^26 characters these comparisons agree with the
      comparisons of the exact quotients, so the ratio is a [Q]. *)

From Stdlib Require Import Ascii String List Bool Arith NArith ZArith QArith Lia.
Import ListNotations.

Close Scope Q_scope.
Open Scope nat_scope.
Open Scope list_scope.

(** ** Python strings *)

Module PyStr.

(** A character is its code point. *)
Definition str := list N.

(** A character and a text given by a literal of the 7-bit range. *)
Definition chr (a : ascii) : N := N_of_ascii a.
Definition py (s : string) : str := map chr (list_ascii_of_string s).

Definition in_range (lo hi c : N) : bool := ((lo <=? c) && (c <=? hi))%N.

Definition is_ascii (c : N) : bool := (c <? 128)%N.

(** *** The 7-bit range *)

Definition ascii_is_upper (c : N) : bool := in_range 65 90 c.
Definition ascii_is_lower (c : N) : bool := in_range 97 122 c.
Definition ascii_is_digit (c : N) : bool := in_range 48 57 c.

Definition ascii_isalnum (c : N) : bool :=
  ascii_is_digit c || ascii_is_upper c || ascii_is_lower c.

(** TAB, LF, VT, FF, CR, FS, GS, RS, US and the space. *)
Definition ascii_isspace (c : N) : bool := in_range 9 13 c || in_range 28 32 c.

Definition ascii_upper (c : N) : N := if ascii_is_lower c then (c - 32)%N else c.
Definition ascii_lower (c : N) : N := if ascii_is_upper c then (c + 32)%N else c.

(** *** The Unicode character database, from 128 on

    [ext_upper c] is [c.upper()] and [ext_title c] is [c.title()], each a
    text of one character or more; [ext_lower before c after] is what
    [(before + c + after).lower()] has in the place of [c], which for the
    capital sigma depends on the text around it ([before] has the nearest
    character first).  The four laws are facts of the database: a case
    mapping is never empty, the first character of an upper-cased character
    is its own upper case, and a 7-bit character that upper-casing brings
    in is a capital letter. *)

Class unicode : Type := {
  ext_isspace : N -> bool;
  ext_isalnum : N -> bool;
  ext_iscased : N -> bool;
  ext_upper : N -> str;
  ext_title : N -> str;
  ext_lower : str -> N -> str -> str;
  ext_upper_nonempty :
    forall c, is_ascii c = false -> ext_upper c <> [];
  ext_upper_head :
    forall c u us,
      is_ascii c = false -> ext_upper c = u :: us ->
      if is_ascii u then ascii_upper u = u else ext_upper u = [u];
  ext_upper_ascii :
    forall c u,
      is_ascii c = false -> In u (ext_upper c) -> is_ascii u = true ->
      ascii_is_upper u = true;
  ext_lower_nonempty :
    forall before c after, is_ascii c = false -> ext_lower before c after <> []
}.

(** *** The database up to 255

    The entries of the Unicode character database for the code points 128
    to 255, and the blank characters of the whole database.  Among these
    code points the case mappings do not depend on the text around.  The
    instance [latin1] serves to evaluate the program on a concrete text
    whose code points are below 256; it records nothing else about the
    code points from 256 on. *)

Definition latin1_isspace (c : N) : bool :=
  N.eqb c 133 || N.eqb c 160 || N.eqb c 5760 || in_range 8192 8202 c
  || in_range 8232 8233 c || N.eqb c 8239 || N.eqb c 8287 || N.eqb c 12288.

Definition latin1_is_upper (c : N) : bool :=
  in_range 192 214 c || in_range 216 222 c.

Definition latin1_is_lower (c : N) : bool :=
  in_range 224 246 c || in_range 248 254 c.

Definition latin1_iscased (c : N) : bool :=
  N.eqb c 170 || N.eqb c 181 || N.eqb c 186
  || in_range 192 214 c || in_range 216 246 c || in_range 248 255 c.

Definition latin1_isalnum (c : N) : bool :=
  latin1_iscased c || in_range 178 179 c || N.eqb c 185 || in_range 188 190 c.

(** The micro sign becomes the Greek capital mu, the sharp s two capital
    letters and the y with diaeresis the capital of code 376. *)
Definition latin1_upper (c : N) : str :=
  if N.eqb c 181 then [924%N]
  else if N.eqb c 223 then [chr "S"; chr "S"]
  else if N.eqb c 255 then [376%N]
  else if latin1_is_lower c then [(c - 32)%N]
  else [c].

Definition latin1_title (c : N) : str :=
  if N.eqb c 223 then [chr "S"; chr "s"] else latin1_upper c.

Definition latin1_lower (before : str) (c : N) (after : str) : str :=
  if latin1_is_upper c then [(c + 32)%N] else [c].

Ltac by_ranges :=
  unfold latin1_upper, latin1_is_lower, latin1_is_upper,
    ascii_isalnum, ascii_isspace, ascii_upper, ascii_lower,
    ascii_is_upper, ascii_is_lower, ascii_is_digit, is_ascii, in_range in *;
  repeat
    (cbn [andb orb negb] in *;
     match goal with
     | |- context [(?a <=? ?b)%N] => destruct (N.leb_spec a b)
     | |- context [(?a <? ?b)%N] => destruct (N.ltb_spec a b)
     | |- context [(?a =? ?b)%N] => destruct (N.eqb_spec a b)
     | H : context [(?a <=? ?b)%N] |- _ => destruct (N.leb_spec a b)
     | H : context [(?a <? ?b)%N] |- _ => destruct (N.ltb_spec a b)
     | H : context [(?a =? ?b)%N] |- _ => destruct (N.eqb_spec a b)
     end);
  cbn [andb orb negb] in *; try reflexivity; try discriminate; try lia.

Definition latin1 : unicode.
Proof.
  refine {| ext_isspace := latin1_isspace;
            ext_isalnum := latin1_isalnum;
            ext_iscased := latin1_iscased;
            ext_upper := latin1_upper;
            ext_title := latin1_title;
            ext_lower := latin1_lower |}.
  - intros c _. by_ranges.
  - intros c u us Hc E.
    assert (Hu : is_ascii u = true /\ ascii_upper u = u
                 \/ is_ascii u = false /\ latin1_upper u = [u]).
    { unfold latin1_upper in E.
      destruct (N.eqb_spec c 181); [injection E as <- _; right; split; reflexivity|].
      destruct (N.eqb_spec c 223); [injection E as <- _; left; split; reflexivity|].
      destruct (N.eqb_spec c 255); [injection E as <- _; right; split; reflexivity|].
      destruct (latin1_is_lower c) eqn:El; injection E as <- _; right.
      - split; by_ranges.
      - split; [exact Hc|]. unfold latin1_upper.
        destruct (N.eqb_spec c 181); [contradiction|].
        destruct (N.eqb_spec c 223); [contradiction|].
        destruct (N.eqb_spec c 255); [contradiction|].
        now rewrite El. }
    destruct Hu as [[-> H]|[-> H]]; exact H.
  - intros c u Hc Hin Hu. unfold latin1_upper in Hin.
    destruct (N.eqb_spec c 181); [destruct Hin as [<-|[]]; discriminate Hu|].
    destruct (N.eqb_spec c 223); [destruct Hin as [<-|[<-|[]]]; reflexivity|].
    destruct (N.eqb_spec c 255); [destruct Hin as [<-|[]]; discriminate Hu|].
    destruct (latin1_is_lower c) eqn:El; destruct Hin as [<-|[]].
    + by_ranges.
    + congruence.
  - intros before c after _. unfold latin1_lower.
    destruct (latin1_is_upper c); discriminate.
Defined.

Section Characters.

Context {U : unicode}.

(** [c.isalnum()] and [c.isspace()] *)
Definition isalnum (c : N) : bool :=
  if is_ascii c then ascii_isalnum c else ext_isalnum c.

Definition isspace (c : N) : bool :=
  if is_ascii c then ascii_isspace c else ext_isspace c.

(** Whether [c] is a cased character, as [str.title] asks. *)
Definition iscased (c : N) : bool :=
  if is_ascii c then ascii_is_upper c || ascii_is_lower c else ext_iscased c.

(** [c.upper()], [c.title()] and the part of [c] in the lower-cased text *)
Definition upper_char (c : N) : str :=
  if is_ascii c then [ascii_upper c] else ext_upper c.

Definition title_char (c : N) : str :=
  if is_ascii c then [ascii_upper c] else ext_title c.

Definition lower_char (before : str) (c : N) (after : str) : str :=
  if is_ascii c then [ascii_lower c] else ext_lower before c after.

(** [s.upper()] *)
Definition upper (s : str) : str := flat_map upper_char s.

(** [s.lower()]; [before] is the text already passed, nearest character
    first. *)
Fixpoint lower_from (before s : str) : str :=
  match s with
  | [] => []
  | c :: after => lower_char before c after ++ lower_from (c :: before) after
  end.

Definition lower (s : str) : str := lower_from [] s.

(** [s.title()]: a character that follows a cased character is lower-cased,
    any other character is title-cased. *)
Fixpoint title_from (before : str) (previous_is_cased : bool) (s : str) : str :=
  match s with
  | [] => []
  | c :: after =>
      (if previous_is_cased then lower_char before c after else title_char c)
        ++ title_from (c :: before) (iscased c) after
  end.

Definition title (s : str) : str := title_from [] false s.

End Characters.

Fixpoint eqb (s t : str) : bool :=
  match s, t with
  | [], [] => true
  | c :: s', d :: t' => N.eqb c d && eqb s' t'
  | _, _ => false
  end.

(** [c in chars] *)
Definition mem (chars : str) (c : N) : bool :=
  existsb (N.eqb c) chars.

Fixpoint drop_while (p : N -> bool) (s : str) : str :=
  match s with
  | [] => []
  | c :: s' => if p c then drop_while p s' else s
  end.

Fixpoint take_while (p : N -> bool) (s : str) : str :=
  match s with
  | [] => []
  | c :: s' => if p c then c :: take_while p s' else []
  end.

Definition lstrip_by (p : N -> bool) (s : str) : str := drop_while p s.
Definition rstrip_by (p : N -> bool) (s : str) : str :=
  rev (drop_while p (rev s)).
Definition strip_by (p : N -> bool) (s : str) : str :=
  rstrip_by p (lstrip_by p s).

(** [s.strip()], [s.strip(chars)] and [s.rstrip(chars)] *)
Definition strip {U : unicode} (s : str) : str := strip_by isspace s.
Definition strip_chars (chars s : str) : str := strip_by (mem chars) s.
Definition rstrip_chars (chars s : str) : str := rstrip_by (mem chars) s.

(** [s.startswith(prefix)] *)
Fixpoint startswith (prefix s : str) : bool :=
  match prefix, s with
  | [], _ => true
  | p :: prefix', c :: s' => N.eqb p c && startswith prefix' s'
  | _ :: _, [] => false
  end.

(** [s.split(sep)] for a one-character separator: never an empty list. *)
Fixpoint split (sep : N) (s : str) : list str :=
  match s with
  | [] => [[]]
  | c :: s' =>
      if N.eqb c sep then [] :: split sep s'
      else match split sep s' with
           | l :: ls => (c :: l) :: ls
           | [] => [[c]]
           end
  end.

(** [s[-1]] when [s] is not empty. *)
Definition last_char (s : str) : option N :=
  match s with
  | [] => None
  | c :: s' => Some (last s' c)
  end.

Definition nl : N := chr "010".
Definition sp : N := chr " ".
Definition dquote : N := chr "034".
Definition backquote : N := chr "096".
Definition is_nl (c : N) : bool := N.eqb c nl.
Definition is_sp (c : N) : bool := N.eqb c sp.

(** Four characters beyond the 7-bit range: the no-break space, the small
    and the capital e with acute accent, and the sharp s. *)
Definition nbsp : N := 160.
Definition e_acute : N := 233.
Definition capital_e_acute : N := 201.
Definition sharp_s : N := 223.

End PyStr.
Import PyStr.

(** ** The five regular expressions of the program

    [re.sub], [re.findall] and [re.split] share one left-to-right scan: at
    each position the pattern is tried once; a match is reported and the
    scan resumes at its end; where nothing matches one character is passed
    over.  After an empty match the engine insists on progress at that
    position, and since each pattern below has at most one candidate match
    per position, the character there is passed over unmatched.

    A pattern is given by the function that picks, from the character
    before the position (for the look-behind) and the text from the position
    on, the length of the match there. *)

Module Re.

Definition matcher := option N -> str -> option nat.

(** What the scan yields: unmatched characters and matches, in order. *)
Inductive piece : Type :=
| Lit (c : N)
| Hit (m : str).

(** [skip] counts the characters of the current match still to pass. *)
Fixpoint scan (m : matcher) (prev : option N) (s : str) (skip : nat)
  : list piece :=
  match skip with
  | S k =>
      match s with
      | [] => []
      | c :: s' => scan m (Some c) s' k
      end
  | O =>
      match m prev s with
      | Some n =>
          Hit (firstn n s) ::
            match s with
            | [] => []
            | c :: s' =>
                match n with
                | O => Lit c :: scan m (Some c) s' 0
                | S k => scan m (Some c) s' k
                end
            end
      | None =>
          match s with
          | [] => []
          | c :: s' => Lit c :: scan m (Some c) s' 0
          end
      end
  end.

Definition finditer (m : matcher) (s : str) : list piece := scan m None s 0.

Definition replace_piece (repl : str) (p : piece) : str :=
  match p with
  | Lit c => [c]
  | Hit _ => repl
  end.

(** [re.sub(pattern, repl, s)] for a replacement without group references *)
Definition sub (m : matcher) (repl s : str) : str :=
  flat_map (replace_piece repl) (finditer m s).

(** [re.findall(pattern, s)] for a pattern without groups *)
Definition findall (m : matcher) (s : str) : list str :=
  flat_map (fun p => match p with Hit x => [x] | Lit _ => [] end)
           (finditer m s).

(** [re.split(pattern, s)] for a pattern without groups *)
Definition split (m : matcher) (s : str) : list str :=
  fold_right
    (fun p acc =>
       match p with
       | Lit c => (c :: hd [] acc) :: tl acc
       | Hit _ => [] :: acc
       end)
    [[]] (finditer m s).

Definition prev_is (p : N -> bool) (prev : option N) : bool :=
  match prev with
  | Some c => p c
  | None => false
  end.

(** [(?<!\n)\n(?!\n)]: a newline with no newline on either side *)
Definition lone_newline : matcher :=
  fun prev s =>
    match s with
    | c :: rest =>
        if is_nl c && negb (prev_is is_nl prev)
           && negb (prev_is is_nl (hd_error rest))
        then Some 1 else None
    | [] => None
    end.

(** [\n+] and [ +]: the longest non-empty run of characters of a class *)
Definition run_of (p : N -> bool) : matcher :=
  fun _ s =>
    match List.length (take_while p s) with
    | O => None
    | n => Some n
    end.

(** A bracket expression: one character of a class; the program splits at
    the class of the double quote and the backquote. *)
Definition one_of (p : N -> bool) : matcher :=
  fun _ s =>
    match s with
    | c :: _ => if p c then Some 1 else None
    | [] => None
    end.

(** [(?<=[-*]).*]: directly after a hyphen or an asterisk, the rest of the
    line, which may be empty (the dot does not match a newline) *)
Definition after_bullet : matcher :=
  fun prev s =>
    if prev_is (mem (py "-*")) prev
    then Some (List.length (take_while (fun c => negb (is_nl c)) s))
    else None.

End Re.

(** ** Whitespace and sentence normalisation *)

Definition parse_whitespace (s : str) : str :=
  let s := Re.sub Re.lone_newline [sp] s in
  let s := Re.sub (Re.run_of is_nl) [nl] s in
  let s := Re.sub (Re.run_of is_sp) [sp] s in
  s.

Section Sentences.

Context {U : unicode}.

(** Capitalize first letter without lowercasing the rest *)
Definition caps (s : str) : str := upper (firstn 1 s) ++ skipn 1 s.

Definition format_sent (s : str) : str :=
  let s := caps s in
  match last_char s with
  | Some c => if isalnum c then s ++ py "." else s
  | None => s
  end.

End Sentences.

(** ** Exceptions *)

Inductive exn : Type :=
| KeyError
| ValueError
| StopIteration.

Inductive result (A : Type) : Type :=
| Ok (a : A)
| Raise (e : exn).

Arguments Ok {A} a.
Arguments Raise {A} e.

Definition bind {A B : Type} (r : result A) (k : A -> result B) : result B :=
  match r with
  | Ok a => k a
  | Raise e => Raise e
  end.

Notation "x <- r ;; k" := (bind r (fun x => k))
  (at level 61, r at next level, right associativity).

(** ** Ordered dictionaries with string keys *)

Module OrderedDict.

Definition t := list (str * str).

Definition keys (d : t) : list str := map fst d.

(** [d[k]] read: the value, or [KeyError] *)
Fixpoint get (k : str) (d : t) : option str :=
  match d with
  | [] => None
  | (k', v) :: d' => if PyStr.eqb k k' then Some v else get k d'
  end.

Definition getitem (k : str) (d : t) : result str :=
  match get k d with
  | Some v => Ok v
  | None => Raise KeyError
  end.

(** [d[k] = v]: an existing key keeps its place, a new key goes last *)
Fixpoint set (k v : str) (d : t) : t :=
  match d with
  | [] => [(k, v)]
  | (k', v') :: d' =>
      if PyStr.eqb k k' then (k, v) :: d' else (k', v') :: set k v d'
  end.

Fixpoint remove (k : str) (d : t) : t :=
  match d with
  | [] => []
  | (k', v') :: d' => if PyStr.eqb k k' then d' else (k', v') :: remove k d'
  end.

(** [d.pop(k)]: the value and the dictionary without the key *)
Definition pop (k : str) (d : t) : result (str * t) :=
  v <- getitem k d ;; Ok (v, remove k d).

End OrderedDict.

(** ** [difflib.SequenceMatcher(a=a, b=b).ratio()]

    With [isjunk=None] no element of [b] is junk; with [autojunk=True] an
    element of a [b] of 200 elements or more that fills more than 1% of it
    (plus one) is "popular" and its positions are forgotten. *)

Module Difflib.

Definition nth_char (s : str) (i : nat) : N := nth i s 0%N.

Fixpoint positions (x : N) (s : str) (from : nat) : list nat :=
  match s with
  | [] => []
  | c :: s' =>
      if N.eqb c x then from :: positions x s' (S from)
      else positions x s' (S from)
  end.

(** A quadruple [(alo, ahi, blo, bhi)] and a triple [(i, j, k)]. *)
Definition range4 := (nat * nat * nat * nat)%type.
Definition block := (nat * nat * nat)%type.

(** the dictionary [j2len], read with default 0 *)
Fixpoint j2lenget (j2len : list (nat * nat)) (j : nat) : nat :=
  match j2len with
  | [] => 0
  | (j', k) :: rest => if j =? j' then k else j2lenget rest j
  end.

Section Matcher.

Variables a b : str.

Definition popular (x : N) : bool :=
  let n := length b in
  (200 <=? n) && (n / 100 + 1 <? length (positions x b 0)).

(** [b2j.get(x, [])] after [__chain_b] *)
Definition b2j (x : N) : list nat :=
  if popular x then [] else positions x b 0.

Definition isbjunk (_ : N) : bool := false.

(** The loop [for j in b2j.get(a[i], nothing)] of [find_longest_match];
    [j - 1] is looked up only for a positive [j], the key -1 being
    absent, and [i - k + 1] is written [i + 1 - k]. *)
Fixpoint scan_row (blo bhi i : nat) (js : list nat)
         (j2len newj2len : list (nat * nat)) (best : block)
  : list (nat * nat) * block :=
  match js with
  | [] => (newj2len, best)
  | j :: js' =>
      if j <? blo then scan_row blo bhi i js' j2len newj2len best
      else if bhi <=? j then (newj2len, best)
      else
        let k := match j with
                 | O => 0
                 | S j' => j2lenget j2len j'
                 end + 1 in
        let '(_, _, bestsize) := best in
        scan_row blo bhi i js' j2len ((j, k) :: newj2len)
                 (if bestsize <? k then (i + 1 - k, j + 1 - k, k) else best)
  end.

(** The loop [for i in range(alo, ahi)] *)
Fixpoint scan_rows (blo bhi : nat) (rows : list nat)
         (j2len : list (nat * nat)) (best : block) : block :=
  match rows with
  | [] => best
  | i :: rows' =>
      let '(newj2len, best') :=
        scan_row blo bhi i (b2j (nth_char a i)) j2len [] best in
      scan_rows blo bhi rows' newj2len best'
  end.

(** The loops that grow the match to the left, over elements whose
    junk status is [junk] *)
Fixpoint extend_left (junk : bool) (alo blo besti bestj bestsize : nat)
  : block :=
  match besti, bestj with
  | S i', S j' =>
      if (alo <? besti) && (blo <? bestj)
         && Bool.eqb (isbjunk (nth_char b j')) junk
         && N.eqb (nth_char a i') (nth_char b j')
      then extend_left junk alo blo i' j' (S bestsize)
      else (besti, bestj, bestsize)
  | _, _ => (besti, bestj, bestsize)
  end.

(** The loops that grow the match to the right; at most
    [ahi - (besti + bestsize)] rounds *)
Fixpoint extend_right (junk : bool) (rounds ahi bhi besti bestj bestsize : nat)
  : block :=
  match rounds with
  | O => (besti, bestj, bestsize)
  | S rounds' =>
      if (besti + bestsize <? ahi) && (bestj + bestsize <? bhi)
         && Bool.eqb (isbjunk (nth_char b (bestj + bestsize))) junk
         && N.eqb (nth_char a (besti + bestsize))
                      (nth_char b (bestj + bestsize))
      then extend_right junk rounds' ahi bhi besti bestj (S bestsize)
      else (besti, bestj, bestsize)
  end.

Definition extend (junk : bool) (alo ahi blo bhi : nat) (best : block)
  : block :=
  let '(besti, bestj, bestsize) := best in
  let '(besti, bestj, bestsize) :=
    extend_left junk alo blo besti bestj bestsize in
  extend_right junk (ahi - (besti + bestsize)) ahi bhi besti bestj bestsize.

Definition find_longest_match (alo ahi blo bhi : nat) : block :=
  let best := scan_rows blo bhi (seq alo (ahi - alo)) [] (alo, blo, 0) in
  let best := extend false alo ahi blo bhi best in
  extend true alo ahi blo bhi best.

(** The loop [while queue] of [get_matching_blocks]; the head of the
    list is the end of the Python list, where [pop] and [append] work.
    Every round takes a range off the queue, and a range is put on
    only together with a new block, so the rounds are bounded. *)
Fixpoint blocks_loop (rounds : nat) (queue : list range4)
         (matching_blocks : list block) : list block :=
  match rounds, queue with
  | S rounds', (alo, ahi, blo, bhi) :: queue' =>
      let '(i, j, k) := find_longest_match alo ahi blo bhi in
      if k =? 0 then blocks_loop rounds' queue' matching_blocks
      else
        let queue1 :=
          if (alo <? i) && (blo <? j)
          then (alo, i, blo, j) :: queue' else queue' in
        let queue2 :=
          if (i + k <? ahi) && (j + k <? bhi)
          then (i + k, ahi, j + k, bhi) :: queue1 else queue1 in
        blocks_loop rounds' queue2 (matching_blocks ++ [(i, j, k)])
  | _, _ => matching_blocks
  end.

(** tuple comparison [x <= y] *)
Definition block_leb (x y : block) : bool :=
  let '(i1, j1, k1) := x in
  let '(i2, j2, k2) := y in
  (i1 <? i2) || ((i1 =? i2) && ((j1 <? j2) || ((j1 =? j2) && (k1 <=? k2)))).

Fixpoint insert_block (x : block) (l : list block) : list block :=
  match l with
  | [] => [x]
  | y :: l' => if block_leb x y then x :: l else y :: insert_block x l'
  end.

(** [matching_blocks.sort()] *)
Definition sort_blocks (l : list block) : list block :=
  fold_right insert_block [] l.

(** The pass that merges adjacent blocks; the running block is
    [(i1, j1, k1)]. *)
Fixpoint collapse (i1 j1 k1 : nat) (l : list block) : list block :=
  match l with
  | [] => if k1 =? 0 then [] else [(i1, j1, k1)]
  | (i2, j2, k2) :: l' =>
      if (i1 + k1 =? i2) && (j1 + k1 =? j2)
      then collapse i1 j1 (k1 + k2) l'
      else (if k1 =? 0 then [] else [(i1, j1, k1)]) ++ collapse i2 j2 k2 l'
  end.

Definition get_matching_blocks : list block :=
  let la := length a in
  let lb := length b in
  let matching_blocks :=
    blocks_loop (la + lb + 1) [(0, la, 0, lb)] [] in
  collapse 0 0 0 (sort_blocks matching_blocks) ++ [(la, lb, 0)].

Definition calculate_ratio (matches len : nat) : Q :=
  match len with
  | O => 1%Q
  | _ => (Z.of_nat (2 * matches) # Pos.of_nat len)%Q
  end.

Definition ratio : Q :=
  let matches :=
    fold_right (fun triple n => snd triple + n) 0 get_matching_blocks in
  calculate_ratio matches (length a + length b).

End Matcher.

End Difflib.

(** [x < y] on ratios and thresholds *)
Definition Qltb (x y : Q) : bool := negb (Qle_bool y x).

(** ** The section splitter *)

Section Program.

Context {U : unicode}.

Record split_state : Type := {
  last_section : str;
  sections : OrderedDict.t
}.

(** The body of the loop over the lines. *)
Definition split_line (st : split_state) (line : str) : result split_state :=
  let line := strip line in
  if startswith (py "#") line then
    let last_section := strip_chars (py "# ") line in
    Ok {| last_section := last_section;
          sections := OrderedDict.set last_section [] (sections st) |}
  else
    old <- OrderedDict.getitem (last_section st) (sections st) ;;
    Ok {| last_section := last_section st;
          sections := OrderedDict.set (last_section st)
                                      (old ++ nl :: line) (sections st) |}.

Fixpoint split_lines (st : split_state) (lines : list str) : result split_state :=
  match lines with
  | [] => Ok st
  | line :: lines' => st' <- split_line st line ;; split_lines st' lines'
  end.

(** The loop over [list(sections)] that strips every body. *)
Fixpoint strip_bodies (names : list str) (d : OrderedDict.t) : result OrderedDict.t :=
  match names with
  | [] => Ok d
  | section_name :: names' =>
      body <- OrderedDict.getitem section_name d ;;
      strip_bodies names' (OrderedDict.set section_name (strip body) d)
  end.

(** The state before the first line: the cursor on the empty label, which
    is bound to the empty body. *)
Definition initial_state : split_state :=
  {| last_section := []; sections := [([], [])] |}.

(** Everything after [readme_content.split] has produced the lines; the
    last two steps move the empty label to the end. *)
Definition sections_of_lines (lines : list str) : result OrderedDict.t :=
  st <- split_lines initial_state lines ;;
  d <- strip_bodies (OrderedDict.keys (sections st)) (sections st) ;;
  popped <- OrderedDict.pop [] d ;;
  Ok (OrderedDict.set [] (fst popped) (snd popped)).

Definition extract_sections (readme_content : str) : result OrderedDict.t :=
  sections_of_lines (PyStr.split nl readme_content).

(** ** Fuzzy lookup of a section *)

Definition compare (a b : str) : Q := Difflib.ratio (lower a) (lower b).

(** [x.replace('-', ' ')] on the lowercased text *)
Definition norm (x : str) : str :=
  map (fun c => if N.eqb c (chr "-") then sp else c) (lower x).

(** [max(xs, key=...)]: the running maximum is replaced only by a strictly
    greater element, so the first of several greatest elements wins. *)
Fixpoint max_from {A : Type} (key : A -> Q) (best : A) (xs : list A) : A :=
  match xs with
  | [] => best
  | x :: xs' => max_from key (if Qltb (key best) (key x) then x else best) xs'
  end.

Definition py_max {A : Type} (key : A -> Q) (xs : list A) : result A :=
  match xs with
  | [] => Raise ValueError
  | x :: xs' => Ok (max_from key x xs')
  end.

Definition find_secton (name : str) (sections : OrderedDict.t) (min_conf : Q)
  : result (option str) :=
  best <- py_max snd (map (fun title => (title, compare title name))
                          (OrderedDict.keys sections)) ;;
  let '(title, conf) := best in
  if Qltb conf min_conf then Ok None
  else body <- OrderedDict.getitem title sections ;; Ok (Some body).

(** The default threshold of [find_secton]. *)
Definition default_min_conf : Q := (1 # 2)%Q.

(** ** Examples *)

Definition wake_words : list str :=
  [py "hey mycroft"; py "mycroft"; py "hey-mycroft"].

Definition question_words : list str :=
  [py "who"; py "what"; py "when"; py "where"].

(** The list of suffixes as Python reads it: the literals ["d"] and ["'re"]
    stand side by side without a comma and form one string. *)
Definition question_suffixes : list str :=
  [py "'s"; py "s"; py ""; py "'d"; py "d" ++ py "'re"; py "re"].

Definition parse_example (example : str) : str :=
  let example := parse_whitespace (strip_chars (sp :: nl :: dquote :: py "'`") example) in
  let example := hd [] (Re.split (Re.one_of (mem [dquote; backquote])) example) in
  let example :=
    fold_left
      (fun example prefix =>
         if startswith prefix (lower example)
         then skipn (length prefix) example else example)
      wake_words example in
  let example := strip_chars (py " ,") example in
  let example :=
    if existsb
         (fun word =>
            existsb
              (fun suffix =>
                 startswith (word ++ suffix ++ py " ") (lower example))
              question_suffixes)
         question_words
    then rstrip_chars (py "?.") example ++ py "?"
    else example in
  format_sent example.

(** [x or y] on optional strings: [None] and the empty string are false. *)
Definition py_or (x : option str) (y : result (option str)) : result (option str) :=
  match x with
  | Some (_ :: _) => Ok x
  | _ => y
  end.

Definition find_examples (sections : OrderedDict.t) : result (list str) :=
  first <- find_secton (py "examples") sections default_min_conf ;;
  found <- py_or first (find_secton (py "usage") sections default_min_conf) ;;
  let text := match found with
              | Some ((_ :: _) as s) => s
              | _ => []
              end in
  Ok (Re.findall Re.after_bullet text).

(** ** The title *)

Definition find_title_info (sections : OrderedDict.t) (skill_name : str)
  : result (str * str) :=
  match OrderedDict.keys sections with
  | [] => Raise StopIteration
  | title_section :: _ =>
      if Qle_bool (3 # 10)%Q (compare (norm title_section) (norm skill_name))
      then body <- OrderedDict.getitem title_section sections ;;
           Ok (caps title_section, body)
      else preamble <- OrderedDict.getitem [] sections ;;
           Ok (title (norm skill_name), preamble)
  end.

(** The examples of a document, as the assembler computes them:
    [[parse_example(i) for i in find_examples(extract_sections(readme))]]. *)
Definition examples_of (readme : str) : result (list str) :=
  sections <- extract_sections readme ;;
  found <- find_examples sections ;;
  Ok (map parse_example found).

(** ** The assembler

    [generate_summary] looks the repository up, downloads its README and
    assembles the summary.  The embedding starts where the README has been
    decoded: it takes [repo.html_url], [skill_entry.name],
    [skill_entry.author] and the README text. *)

(** [s.split()]: the maximal runs of characters that are not blank, in
    order; [word] is the run being read, last character first. *)
Fixpoint split_blank_from (word : str) (s : str) : list str :=
  match s with
  | [] => match word with
          | [] => []
          | _ :: _ => [rev word]
          end
  | c :: s' =>
      if isspace c then
        match word with
        | [] => split_blank_from [] s'
        | _ :: _ => rev word :: split_blank_from [] s'
        end
      else split_blank_from (c :: word) s'
  end.

Definition split_blank (s : str) : list str := split_blank_from [] s.

(** [x or y] for an optional string [x] and a string [y] *)
Definition or_else (x : option str) (y : str) : str :=
  match x with
  | Some ((_ :: _) as s) => s
  | _ => y
  end.

(** [s.replace('\n', ' ')] *)
Definition newlines_to_spaces (s : str) : str :=
  map (fun c => if is_nl c then sp else c) s.

(** The dictionary that [generate_summary] returns, key by key. *)
Record summary : Type := {
  sum_repo : str;
  sum_title : str;
  sum_name : str;
  sum_author : str;
  sum_github_username : str;
  sum_short_desc : str;
  sum_description : str;
  sum_examples : list str;
  sum_requires : list str;
  sum_excludes : list str
}.

Definition generate_summary (html_url name author readme : str) : result summary :=
  sections <- extract_sections readme ;;
  title_info <- find_title_info sections name ;;
  let '(title, short_desc) := title_info in
  author_section <- find_secton (py "author") sections default_min_conf ;;
  description <- find_secton (py "description") sections default_min_conf ;;
  examples <- find_examples sections ;;
  requires <- find_secton (py "require") sections (9 # 10)%Q ;;
  excludes <- find_secton (py "exclude") sections (9 # 10)%Q ;;
  Ok {| sum_repo := html_url;
        sum_title := title;
        sum_name := name;
        sum_author := or_else author_section (caps author);
        sum_github_username := author;
        sum_short_desc :=
          rstrip_chars (py ".")
            (format_sent (parse_whitespace (newlines_to_spaces short_desc)));
        sum_description :=
          format_sent (parse_whitespace (or_else description []));
        sum_examples := map parse_example examples;
        sum_requires := split_blank (parse_whitespace (or_else requires []));
        sum_excludes := split_blank (parse_whitespace (or_else excludes [])) |}.

End Program.

(** * Auxiliary definitions *)

Section Auxiliary.

Context {U : unicode}.

(** A text of the 7-bit range. *)
Definition all_ascii (s : str) : Prop := Forall (fun c => is_ascii c = true) s.

(** ** Closed forms of the three substitutions *)

(** A run of characters of the class [p] becomes the one character [r];
    [in_run] tells that the run has begun. *)
Fixpoint squeeze (p : N -> bool) (r : N) (in_run : bool) (s : str) : str :=
  match s with
  | [] => []
  | c :: s' =>
      if p c then (if in_run then squeeze p r true s' else r :: squeeze p r true s')
      else c :: squeeze p r false s'
  end.

(** A newline between two characters that are not newlines becomes a
    space; [prev_nl] tells that the character before is a newline. *)
Fixpoint unwrap (prev_nl : bool) (s : str) : str :=
  match s with
  | [] => []
  | c :: s' =>
      (if is_nl c && negb prev_nl && negb (Re.prev_is is_nl (hd_error s'))
       then sp else c) :: unwrap (is_nl c) s'
  end.

(** Two newlines side by side, the first possibly being the character
    before the text. *)
Fixpoint double_newline_from (prev_nl : bool) (s : str) : bool :=
  match s with
  | [] => false
  | c :: s' => (prev_nl && is_nl c) || double_newline_from (is_nl c) s'
  end.

Definition has_double_newline (s : str) : bool := double_newline_from false s.

Definition not_nl (c : N) : Prop := is_nl c = false.

(** ** Auxiliary notions for the section splitter *)

(** What the loop over the lines maintains: distinct labels, the empty
    label among them, and the cursor on one of them. *)
Record well_formed (st : split_state) : Prop := {
  wf_distinct : NoDup (OrderedDict.keys (sections st));
  wf_preamble : In [] (OrderedDict.keys (sections st));
  wf_cursor : In (last_section st) (OrderedDict.keys (sections st))
}.

Definition strip_body (entry : str * str) : str * str :=
  (fst entry, strip (snd entry)).

(** A line that opens a section, and the label it gives. *)
Definition is_heading (line : str) : bool := startswith (py "#") (strip line).
Definition heading_label (line : str) : str := strip_chars (py "# ") (strip line).

(** A line made of heading markers and spaces, with a marker in it. *)
Definition marker_only (line : str) : Prop :=
  Forall (fun c => c = chr "#" \/ c = sp) line /\ In (chr "#") line.

(** What a run of body lines adds to the body under the cursor. *)
Definition body_text (lines : list str) : str :=
  concat (map (fun line => nl :: strip line) lines).

(** Two states of the loop that have the same cursor and the same body
    under the label [k]. *)
Definition agree (k : str) (st1 st2 : split_state) : Prop :=
  last_section st1 = last_section st2
  /\ OrderedDict.get k (sections st1) = OrderedDict.get k (sections st2).

(** The field names that the assembler and [find_examples] look up. *)
Definition field_names : list str :=
  [py "author"; py "description"; py "examples"; py "usage";
   py "require"; py "exclude"].

(** ** Auxiliary notions for the matching blocks *)

(** A block inside the window [(alo, ahi, blo, bhi)]. *)
Definition block_within (alo ahi blo bhi : nat) (x : Difflib.block) : Prop :=
  let '(i, j, k) := x in
  alo <= i /\ i + k <= ahi /\ blo <= j /\ j + k <= bhi.

(** An entry of [j2len] while row [i] is being read: lengths of matches
    that end in the row before. *)
Definition entry_bounded (alo blo i : nat) (e : nat * nat) : Prop :=
  let '(j, k) := e in
  k <= i - alo /\ blo <= j /\ k <= j + 1 - blo.

Definition range_ordered (r : Difflib.range4) : Prop :=
  let '(alo, ahi, blo, bhi) := r in alo <= ahi /\ blo <= bhi.

(** A bound on the rounds that a queue of windows still needs. *)
Definition range_weight (r : Difflib.range4) : nat :=
  let '(alo, ahi, blo, bhi) := r in 2 * Nat.min (ahi - alo) (bhi - blo) + 1.

Definition queue_weight (queue : list Difflib.range4) : nat :=
  fold_right (fun r n => range_weight r + n) 0 queue.

(** ** Auxiliary notions for the further properties *)

(** Two characters of the class [p] side by side, the first possibly being
    the character before the text. *)
Fixpoint adjacent_from (p : N -> bool) (prev : bool) (s : str) : bool :=
  match s with
  | [] => false
  | c :: s' => (prev && p c) || adjacent_from p (p c) s'
  end.

Definition has_double_space (s : str) : bool := adjacent_from is_sp false s.

(** The labels of the heading lines, in the order of the lines. *)
Definition heading_labels (lines : list str) : list str :=
  map heading_label (filter is_heading lines).

(** The labels not in [seen], each at its first occurrence. *)
Fixpoint first_seen (seen labels : list str) : list str :=
  match labels with
  | [] => []
  | label :: labels' =>
      if existsb (PyStr.eqb label) seen then first_seen seen labels'
      else label :: first_seen (label :: seen) labels'
  end.

(** The first of the lines, when there is one, opens a section. *)
Definition starts_with_heading (lines : list str) : Prop :=
  match lines with
  | [] => True
  | line :: _ => is_heading line = true
  end.

(** None of the lines opens a section with the label [k]. *)
Definition label_absent (k : str) (lines : list str) : Prop :=
  Forall (fun line => is_heading line = true -> heading_label line <> k) lines.

(** The number of characters in a list of matching blocks. *)
Definition block_sum (blocks : list Difflib.block) : nat :=
  fold_right (fun triple n => snd triple + n) 0 blocks.

(** What the windows of a queue can still contribute to [block_sum]. *)
Definition range_room (r : Difflib.range4) : nat :=
  let '(alo, ahi, blo, bhi) := r in Nat.min (ahi - alo) (bhi - blo).

Definition queue_room (queue : list Difflib.range4) : nat :=
  fold_right (fun r n => range_room r + n) 0 queue.

(** A bullet character, a quoting character, and the characters that
    [parse_example] strips first. *)
Definition is_bullet : N -> bool := mem (py "-*").
Definition is_quote : N -> bool := mem [dquote; backquote].
Definition is_wrapping : N -> bool := mem (sp :: nl :: dquote :: py "'`").

Definition no_quote (c : N) : Prop := is_quote c = false.

(** The matches among the pieces of a scan have no newline in them. *)
Definition hit_on_one_line (p : Re.piece) : Prop :=
  match p with
  | Re.Hit x => Forall not_nl x
  | Re.Lit _ => True
  end.

(** A token: a non-empty text without blanks. *)
Definition is_token (w : str) : Prop :=
  w <> [] /\ Forall (fun c => isspace c = false) w.

End Auxiliary.

(** * Properties *)

(** ** Characters *)

Lemma ascii_upper_is_ascii (c : N) : is_ascii c = true -> is_ascii (ascii_upper c) = true.
Proof. intros H. by_ranges. Qed.

Lemma ascii_lower_is_ascii (c : N) : is_ascii c = true -> is_ascii (ascii_lower c) = true.
Proof. intros H. by_ranges. Qed.

Lemma ascii_upper_twice (c : N) : ascii_upper (ascii_upper c) = ascii_upper c.
Proof. by_ranges. Qed.

Lemma ascii_lower_upper (c : N) : ascii_lower (ascii_upper c) = ascii_lower c.
Proof. by_ranges. Qed.

Lemma ascii_lower_twice (c : N) : ascii_lower (ascii_lower c) = ascii_lower c.
Proof. by_ranges. Qed.


Lemma last_default_irrelevant (A : Type) (l : list A) (x y : A) :
  l <> [] -> last l x = last l y.
Proof.
  induction l as [|a [|b l'] IH]; intros Hne.
  - contradiction.
  - reflexivity.
  - change (last (b :: l') x = last (b :: l') y). apply IH. discriminate.
Qed.

Section Sentence.

Context {U : unicode}.

Lemma upper_char_ascii (c : N) : is_ascii c = true -> upper_char c = [ascii_upper c].
Proof. intros H. unfold upper_char. now rewrite H. Qed.

Lemma upper_char_nonempty (c : N) : upper_char c <> [].
Proof.
  unfold upper_char. destruct (is_ascii c) eqn:E; [discriminate|].
  now apply ext_upper_nonempty.
Qed.

(** The first character of an upper-cased character is its own upper case. *)
Lemma upper_char_head (c u : N) (us : str) :
  upper_char c = u :: us -> upper_char u = [u].
Proof.
  unfold upper_char. destruct (is_ascii c) eqn:E.
  - intros [= <- _]. rewrite (ascii_upper_is_ascii c E).
    now rewrite ascii_upper_twice.
  - intros Hu. pose proof (ext_upper_head c u us E Hu) as H.
    destruct (is_ascii u); [now rewrite H|exact H].
Qed.


Lemma caps_cons (c : N) (rest : str) : caps (c :: rest) = upper_char c ++ rest.
Proof. unfold caps, upper. cbn [firstn skipn flat_map]. now rewrite app_nil_r. Qed.

Lemma caps_nonempty (s : str) : s <> [] -> caps s <> [].
Proof.
  destruct s as [|c rest]; [contradiction|]. intros _ E. rewrite caps_cons in E.
  apply app_eq_nil in E as [E _]. now apply upper_char_nonempty in E.
Qed.

Lemma last_char_app (s : str) (d : N) : last_char (s ++ [d]) = Some d.
Proof.
  destruct s as [|c rest]; [reflexivity|]. cbn [app last_char].
  now rewrite last_last.
Qed.

Lemma last_char_nonempty (s : str) : s <> [] -> exists d, last_char s = Some d.
Proof. destruct s; [contradiction|]. cbn. eauto. Qed.

(** The sentence, from the capitalised text and its last character. *)
Lemma format_sent_caps (s : str) (d : N) :
  last_char (caps s) = Some d ->
  format_sent s = caps s ++ (if isalnum d then py "." else []).
Proof.
  intros H. unfold format_sent. rewrite H.
  destruct (isalnum d); [reflexivity|now rewrite app_nil_r].
Qed.

(** ** The sentence formatter *)


End Sentence.

(** ** The whitespace normaliser *)

Section Squeeze.

Variable p : N -> bool.
Variable r : N.

Let flat (l : list Re.piece) : str := flat_map (Re.replace_piece [r]) l.

Lemma scan_run_of (s : str) :
  (forall prev, flat (Re.scan (Re.run_of p) prev s 0) = squeeze p r false s)
  /\ (forall prev, flat (Re.scan (Re.run_of p) prev s (length (take_while p s)))
                   = squeeze p r true s).
Proof.
  induction s as [|c s' [IH0 IHrun]].
  - split; reflexivity.
  - assert (H0 : forall prev,
               flat (Re.scan (Re.run_of p) prev (c :: s') 0)
               = squeeze p r false (c :: s')).
    { intros prev. cbn [Re.scan squeeze]. unfold Re.run_of at 1.
      cbn [take_while]. destruct (p c).
      - cbn [length]. unfold flat. cbn [flat_map Re.replace_piece app].
        f_equal. apply IHrun.
      - cbn [length]. unfold flat. cbn [flat_map Re.replace_piece app].
        f_equal. apply IH0. }
    split; [exact H0|].
    intros prev. cbn [take_while]. destruct (p c) eqn:Hc.
    + cbn [length Re.scan squeeze]. rewrite Hc. apply IHrun.
    + cbn [length]. rewrite H0. cbn [squeeze]. now rewrite Hc.
Qed.

Lemma sub_run_of (s : str) : Re.sub (Re.run_of p) [r] s = squeeze p r false s.
Proof. apply (proj1 (scan_run_of s)). Qed.

Lemma squeeze_id (s : str) (b : bool) :
  Forall (fun c => p c = false) s -> squeeze p r b s = s.
Proof.
  intros H. revert b. induction H as [|c s' Hc _ IH]; intros b.
  - reflexivity.
  - cbn [squeeze]. rewrite Hc. f_equal. apply IH.
Qed.

Hypothesis p_r : p r = true.

Lemma squeeze_twice (s : str) :
  squeeze p r false (squeeze p r false s) = squeeze p r false s
  /\ squeeze p r true (squeeze p r true s) = squeeze p r true s.
Proof.
  induction s as [|c s' [IHf IHt]].
  - split; reflexivity.
  - cbn [squeeze]. destruct (p c) eqn:Hc.
    + split; [|exact IHt]. cbn [squeeze]. rewrite p_r. f_equal. exact IHt.
    + cbn [squeeze]. rewrite Hc. split; f_equal; exact IHf.
Qed.

Lemma squeeze_Forall (P : N -> Prop) (s : str) (b : bool) :
  P r -> Forall P s -> Forall P (squeeze p r b s).
Proof.
  intros Hr H. revert b. induction H as [|c s' Hc _ IH]; intros b.
  - constructor.
  - cbn [squeeze]. destruct (p c); [destruct b|]; auto.
Qed.

End Squeeze.

Lemma scan_lone_newline (s : str) (prev : option N) :
  flat_map (Re.replace_piece [sp]) (Re.scan Re.lone_newline prev s 0)
  = unwrap (Re.prev_is is_nl prev) s.
Proof.
  revert prev. induction s as [|c s' IH]; intros prev.
  - reflexivity.
  - cbn [Re.scan unwrap Re.lone_newline].
    destruct (is_nl c && negb (Re.prev_is is_nl prev)
              && negb (Re.prev_is is_nl (hd_error s'))) eqn:E;
      cbn [flat_map Re.replace_piece app]; f_equal; apply IH.
Qed.

(** The normaliser in closed form. *)
Lemma parse_whitespace_eq (s : str) :
  parse_whitespace s
  = squeeze is_sp sp false (squeeze is_nl nl false (unwrap false s)).
Proof.
  unfold parse_whitespace. rewrite !sub_run_of. do 2 f_equal.
  apply (scan_lone_newline s None).
Qed.

Lemma unwrap_id (s : str) (b : bool) : Forall not_nl s -> unwrap b s = s.
Proof.
  intros H. revert b. induction H as [|c s' Hc _ IH]; intros b.
  - reflexivity.
  - cbn [unwrap]. unfold not_nl in Hc. rewrite Hc. cbn. f_equal. apply IH.
Qed.

Lemma unwrap_not_nl (s : str) (b : bool) :
  double_newline_from b s = false -> Forall not_nl (unwrap b s).
Proof.
  revert b. induction s as [|c s' IH]; intros b H.
  - constructor.
  - cbn [double_newline_from] in H. apply orb_false_iff in H as [Hbc Hs'].
    cbn [unwrap]. constructor; [|apply IH; exact Hs'].
    destruct (is_nl c) eqn:Hc; [|cbn; exact Hc].
    rewrite andb_true_r in Hbc. subst b.
    destruct s' as [|d s''].
    + reflexivity.
    + cbn [double_newline_from] in Hs'. apply orb_false_iff in Hs' as [Hd _].
      cbn in Hd. cbn. now rewrite Hd.
Qed.

(** Without two adjacent newlines in the input, every newline is turned
    into a space and the result is a fixed point. *)
Lemma parse_whitespace_no_blank_line (s : str) :
  has_double_newline s = false ->
  parse_whitespace s = squeeze is_sp sp false (unwrap false s)
  /\ Forall not_nl (parse_whitespace s).
Proof.
  intros H. apply unwrap_not_nl in H.
  rewrite parse_whitespace_eq, (squeeze_id is_nl nl _ false H).
  split; [reflexivity|]. now apply squeeze_Forall.
Qed.

Lemma not_nl_no_double_newline (s : str) (b : bool) :
  Forall not_nl s -> double_newline_from b s = false.
Proof.
  intros H. revert b. induction H as [|c s' Hc _ IH]; intros b.
  - reflexivity.
  - cbn [double_newline_from]. unfold not_nl in Hc. rewrite Hc, IH.
    now rewrite andb_false_r.
Qed.

Lemma parse_whitespace_fixed (s : str) :
  Forall not_nl (parse_whitespace s) ->
  parse_whitespace (parse_whitespace s) = parse_whitespace s.
Proof.
  intros H. rewrite (parse_whitespace_eq (parse_whitespace s)).
  rewrite (unwrap_id _ false H), (squeeze_id is_nl nl _ false H).
  rewrite parse_whitespace_eq.
  apply (proj1 (squeeze_twice is_sp sp eq_refl _)).
Qed.

(** C1, as amended.  On a text without two adjacent newlines the normaliser
    is idempotent. *)
Theorem parse_whitespace_idempotent (s : str) :
  has_double_newline s = false ->
  parse_whitespace (parse_whitespace s) = parse_whitespace s.
Proof.
  intros H. apply parse_whitespace_fixed.
  now apply parse_whitespace_no_blank_line.
Qed.

Lemma parse_whitespace_idempotent_witness :
  has_double_newline (py "a" ++ [nl] ++ py "b  c") = false
  /\ parse_whitespace (parse_whitespace (py "a" ++ [nl] ++ py "b  c"))
     = parse_whitespace (py "a" ++ [nl] ++ py "b  c").
Proof.
  split; [reflexivity|].
  apply (parse_whitespace_idempotent (py "a" ++ [nl] ++ py "b  c")).
  reflexivity.
Defined.

(** C1, as stated, fails: a paragraph break survives the first pass as a
    single newline, which the second pass takes for a line wrap. *)
Lemma parse_whitespace_not_idempotent :
  parse_whitespace (py "a" ++ [nl; nl] ++ py "b") = py "a" ++ [nl] ++ py "b"
  /\ parse_whitespace (parse_whitespace (py "a" ++ [nl; nl] ++ py "b")) = py "a b"
  /\ ~ (forall s : str, parse_whitespace (parse_whitespace s) = parse_whitespace s).
Proof.
  split; [reflexivity|]. split; [reflexivity|].
  intros H. specialize (H (py "a" ++ [nl; nl] ++ py "b")). discriminate H.
Qed.

(** The amendment is tight: with two adjacent newlines in the input the
    second pass changes the result of the first. *)

Lemma is_nl_eq (c : N) : is_nl c = true -> c = nl.
Proof. apply N.eqb_eq. Qed.

Lemma unwrap_keeps_break (s : str) (b : bool) :
  double_newline_from b s = true -> In nl (unwrap b s).
Proof.
  revert b. induction s as [|c s' IH]; intros b H.
  - discriminate.
  - cbn [double_newline_from] in H. cbn [unwrap].
    apply orb_true_iff in H as [H|H].
    + apply andb_true_iff in H as [-> Hc]. left.
      rewrite andb_false_r. now apply is_nl_eq.
    + right. now apply IH.
Qed.

Lemma squeeze_nl_keeps (s : str) :
  In nl s -> In nl (squeeze is_nl nl false s).
Proof.
  induction s as [|c s' IH]; intros H.
  - contradiction.
  - cbn [squeeze]. destruct (is_nl c) eqn:Hc.
    + now left.
    + right. apply IH. destruct H as [->|H]; [discriminate Hc|exact H].
Qed.

Lemma squeeze_sp_keeps (s : str) (b : bool) :
  In nl s -> In nl (squeeze is_sp sp b s).
Proof.
  revert b. induction s as [|c s' IH]; intros b H.
  - contradiction.
  - cbn [squeeze]. destruct H as [->|H].
    + now left.
    + destruct (is_sp c); [destruct b|]; auto using in_cons.
Qed.

Lemma squeeze_nl_single (s : str) (b : bool) :
  double_newline_from b (squeeze is_nl nl b s) = false.
Proof.
  revert b. induction s as [|c s' IH]; intros b.
  - reflexivity.
  - cbn [squeeze]. destruct (is_nl c) eqn:Hc.
    + destruct b; [apply IH|]. cbn [double_newline_from]. apply IH.
    + cbn [double_newline_from]. rewrite Hc, andb_false_r. apply IH.
Qed.

Lemma squeeze_sp_single (s : str) (b prev : bool) :
  (b = true -> prev = false) ->
  double_newline_from prev s = false ->
  double_newline_from prev (squeeze is_sp sp b s) = false.
Proof.
  revert b prev. induction s as [|c s' IH]; intros b prev Hb H.
  - reflexivity.
  - cbn [double_newline_from] in H. apply orb_false_iff in H as [H1 H2].
    cbn [squeeze]. destruct (is_sp c) eqn:Hc.
    + assert (Hn : is_nl c = false).
      { apply N.eqb_eq in Hc. now subst c. }
      rewrite Hn in H2. destruct b.
      * rewrite (Hb eq_refl). now apply IH.
      * cbn [double_newline_from]. rewrite andb_false_r. now apply IH.
    + cbn [double_newline_from]. rewrite H1. apply IH; [discriminate|exact H2].
Qed.

Lemma parse_whitespace_single_newlines (s : str) :
  has_double_newline (parse_whitespace s) = false.
Proof.
  rewrite parse_whitespace_eq. apply squeeze_sp_single; [discriminate|].
  apply squeeze_nl_single.
Qed.

Lemma parse_whitespace_twice_differs (s : str) :
  has_double_newline s = true ->
  parse_whitespace (parse_whitespace s) <> parse_whitespace s.
Proof.
  intros H E.
  assert (Hin : In nl (parse_whitespace s)).
  { rewrite parse_whitespace_eq.
    now apply squeeze_sp_keeps, squeeze_nl_keeps, unwrap_keeps_break. }
  destruct (parse_whitespace_no_blank_line _ (parse_whitespace_single_newlines s))
    as [_ Hall].
  rewrite E in Hall. rewrite Forall_forall in Hall.
  specialize (Hall nl Hin). discriminate Hall.
Qed.

(** Applied twice, the normaliser does reach a fixed point. *)
Lemma parse_whitespace_thrice (s : str) :
  parse_whitespace (parse_whitespace (parse_whitespace s))
  = parse_whitespace (parse_whitespace s).
Proof.
  apply parse_whitespace_fixed, parse_whitespace_no_blank_line,
    parse_whitespace_single_newlines.
Qed.

Section Resolver.

Context {U : unicode}.

(** ** Example utterances *)

(** C2.  The question mark is inferred for the suffixes ['s], [s], ['d] and
    [re] and for the bare stem, but not for [d] and not for ['re]: the two
    literals are adjacent in the source list and Python reads them as the
    single suffix [d're].  A candidate such as "whatd you say" therefore
    ends in a full stop. *)
Theorem parse_example_suffix_forms :
  parse_example (py "what's up") = py "What's up?"
  /\ parse_example (py "whats up") = py "Whats up?"
  /\ parse_example (py "what is up?.") = py "What is up?"
  /\ parse_example (py "who'd say so") = py "Who'd say so?"
  /\ parse_example (py "wherere you") = py "Wherere you?"
  /\ parse_example (py "whatd you say") = py "Whatd you say."
  /\ parse_example (py "what're you doing") = py "What're you doing."
  /\ parse_example (py "whatd're you") = py "Whatd're you?".
Proof. repeat split; vm_compute; reflexivity. Qed.

(** C4.  The sample document with two bullets under "Examples" yields the
    two utterances, in order. *)
Theorem examples_of_sample_document :
  examples_of (py "# Examples" ++ [nl] ++ py "- turn on the lights" ++ [nl]
                 ++ py "- hey mycroft, what time is it")
  = Ok [py "Turn on the lights."; py "What time is it?"].
Proof. vm_compute. reflexivity. Qed.

(** ** The fuzzy section resolver *)

Lemma Qltb_lt (x y : Q) : Qltb x y = true <-> (x < y)%Q.
Proof.
  unfold Qltb. rewrite negb_true_iff. split; intros H.
  - apply Qnot_le_lt. intros Hle. apply Qle_bool_iff in Hle. congruence.
  - destruct (Qle_bool y x) eqn:E; [|reflexivity].
    apply Qle_bool_iff in E. exfalso. exact (Qlt_not_le _ _ H E).
Qed.

Lemma Qltb_ge (x y : Q) : Qltb x y = false <-> (y <= x)%Q.
Proof.
  unfold Qltb. rewrite negb_false_iff. apply Qle_bool_iff.
Qed.

(** [max_from] returns the first element whose key is greatest. *)
Lemma max_from_first (A : Type) (key : A -> Q) (xs seen later : list A) (best : A) :
  (forall x, In x seen -> (key x < key best)%Q) ->
  (forall x, In x later -> (key x <= key best)%Q) ->
  exists pre post,
    seen ++ best :: later ++ xs = pre ++ max_from key best xs :: post
    /\ (forall x, In x pre -> (key x < key (max_from key best xs))%Q)
    /\ (forall x, In x post -> (key x <= key (max_from key best xs))%Q).
Proof.
  revert seen later best. induction xs as [|x xs' IH]; intros seen later best Hs Hl.
  - exists seen, later. rewrite app_nil_r. auto.
  - cbn [max_from]. destruct (Qltb (key best) (key x)) eqn:E.
    + apply Qltb_lt in E.
      destruct (IH (seen ++ best :: later) [] x) as (pre & post & Heq & Hpre & Hpost).
      * intros y Hy. apply in_app_or in Hy as [Hy|[<-|Hy]].
        -- eapply Qlt_trans; [apply Hs, Hy|exact E].
        -- exact E.
        -- eapply Qle_lt_trans; [apply Hl, Hy|exact E].
      * intros y [].
      * exists pre, post. split; [|auto].
        rewrite <- Heq. cbn [app]. now rewrite <- app_assoc.
    + apply Qltb_ge in E.
      destruct (IH seen (later ++ [x]) best) as (pre & post & Heq & Hpre & Hpost).
      * exact Hs.
      * intros y Hy. apply in_app_or in Hy as [Hy|[<-|[]]]; auto.
      * exists pre, post. split; [|auto].
        rewrite <- Heq. now rewrite <- app_assoc.
Qed.

Lemma eqb_spec (s t : str) : PyStr.eqb s t = true <-> s = t.
Proof.
  revert t. induction s as [|c s' IH]; intros [|d t']; cbn [PyStr.eqb];
    try (split; [discriminate|discriminate]); [tauto|].
  rewrite andb_true_iff, N.eqb_eq, IH. split.
  - now intros [-> ->].
  - intros H. now injection H.
Qed.

Lemma eqb_refl (s : str) : PyStr.eqb s s = true.
Proof. now apply eqb_spec. Qed.

Lemma eqb_neq (s t : str) : PyStr.eqb s t = false <-> s <> t.
Proof.
  rewrite <- eqb_spec. destruct (PyStr.eqb s t); split; congruence.
Qed.

Lemma get_first (k v : str) (pre post : OrderedDict.t) :
  ~ In k (OrderedDict.keys pre) ->
  OrderedDict.get k (pre ++ (k, v) :: post) = Some v.
Proof.
  induction pre as [|[k' v'] pre' IH]; intros Hk; cbn [app OrderedDict.get].
  - now rewrite eqb_refl.
  - destruct (PyStr.eqb k k') eqn:E.
    + apply eqb_spec in E. subst k'. exfalso. apply Hk. now left.
    + apply IH. intros Hin. apply Hk. now right.
Qed.

Lemma lower_from_ascii (s before : str) :
  all_ascii s -> lower_from before s = map ascii_lower s.
Proof.
  intros H. revert before. induction H as [|c s' Hc _ IH]; intros before;
    cbn [lower_from map]; [reflexivity|].
  unfold lower_char. rewrite Hc, IH. reflexivity.
Qed.

Lemma lower_ascii (s : str) : all_ascii s -> lower s = map ascii_lower s.
Proof. apply lower_from_ascii. Qed.

Lemma upper_ascii (s : str) : all_ascii s -> upper s = map ascii_upper s.
Proof.
  unfold upper. induction 1 as [|c s' Hc _ IH]; cbn [flat_map map]; [reflexivity|].
  rewrite upper_char_ascii by exact Hc. now rewrite IH.
Qed.

Lemma all_ascii_upper (s : str) : all_ascii s -> all_ascii (map ascii_upper s).
Proof.
  induction 1 as [|c s' Hc _ IH]; cbn [map]; constructor; [|exact IH].
  now apply ascii_upper_is_ascii.
Qed.

Lemma lower_upper_ascii (s : str) : all_ascii s -> lower (upper s) = lower s.
Proof.
  intros H. rewrite upper_ascii, !lower_ascii by auto using all_ascii_upper.
  rewrite map_map. apply map_ext, ascii_lower_upper.
Qed.

(** The comparison does not tell the upper-cased form of a text of the
    7-bit range from the text. *)
Lemma compare_ignores_case (a b : str) :
  (all_ascii a -> compare (upper a) b = compare a b)
  /\ (all_ascii b -> compare a (upper b) = compare a b).
Proof.
  unfold compare. split; intros H; now rewrite lower_upper_ascii.
Qed.

(** On an empty dictionary [max] has nothing to choose from. *)
Lemma find_secton_empty (name : str) (min_conf : Q) :
  find_secton name [] min_conf = Raise ValueError.
Proof. reflexivity. Qed.

(** C3.  On a non-empty section map [find_secton] scores every label,
    the empty one included, against the field name without regard to case
    (a label of the 7-bit range and its upper-cased form score alike, so
    do a name of that range and its upper-cased form, and the name examples
    finds the label EXAMPLES),
    picks the first label of greatest score, answers [None] exactly when
    that score is strictly below the threshold and the body of that label,
    as stored, otherwise; a score equal to the threshold is accepted. *)
Theorem find_secton_spec (name : str) (sections : OrderedDict.t) (min_conf : Q) :
  sections <> [] ->
  exists pre title body post,
    sections = pre ++ (title, body) :: post
    /\ (forall t, In t (OrderedDict.keys pre) ->
                  (compare t name < compare title name)%Q)
    /\ (forall t, In t (OrderedDict.keys post) ->
                  (compare t name <= compare title name)%Q)
    /\ (forall t, compare t name = Difflib.ratio (lower t) (lower name))
    /\ (forall t, all_ascii t -> compare (upper t) name = compare t name)
    /\ (all_ascii name -> forall t, compare t (upper name) = compare t name)
    /\ find_secton (py "examples") [(py "EXAMPLES", py "say hi"); ([], [])]
                   (1 # 2)%Q
       = Ok (Some (py "say hi"))
    /\ find_secton name sections min_conf
       = Ok (if Qltb (compare title name) min_conf then None else Some body)
    /\ (find_secton name sections min_conf = Ok None
        <-> (compare title name < min_conf)%Q)
    /\ ((compare title name == min_conf)%Q ->
        find_secton name sections min_conf = Ok (Some body)).
Proof.
  intros Hne. destruct sections as [|[k0 v0] rest]; [contradiction|].
  set (score := fun t : str => (t, compare t name)).
  destruct (max_from_first _ snd (map score (OrderedDict.keys rest)) [] []
                           (score k0)) as (pre' & post' & Heq & Hpre & Hpost);
    [intros x []|intros x []|].
  cbn [app] in Heq.
  change (score k0 :: map score (OrderedDict.keys rest))
    with (map score (OrderedDict.keys ((k0, v0) :: rest))) in Heq.
  set (best := max_from snd (score k0) (map score (OrderedDict.keys rest))) in *.
  unfold OrderedDict.keys in Heq. rewrite map_map in Heq.
  apply map_eq_app in Heq as (pre & tl & Hsec & Hmpre & Hmtl).
  apply map_eq_cons in Hmtl as ([title body] & post & -> & Hbest & Hmpost).
  cbn [fst] in Hbest.
  assert (Hconf : snd best = compare title name) by now rewrite <- Hbest.
  assert (Hlt : forall t, In t (OrderedDict.keys pre) ->
                          (compare t name < compare title name)%Q).
  { intros t Ht. rewrite <- Hconf. apply (Hpre (score t)). rewrite <- Hmpre.
    unfold OrderedDict.keys in Ht. apply in_map_iff in Ht as ([t' b'] & <- & Hin).
    apply in_map_iff. now exists (t', b'). }
  assert (Hle : forall t, In t (OrderedDict.keys post) ->
                          (compare t name <= compare title name)%Q).
  { intros t Ht. rewrite <- Hconf. apply (Hpost (score t)). rewrite <- Hmpost.
    unfold OrderedDict.keys in Ht. apply in_map_iff in Ht as ([t' b'] & <- & Hin).
    apply in_map_iff. now exists (t', b'). }
  assert (Hfind : find_secton name ((k0, v0) :: rest) min_conf
                  = Ok (if Qltb (compare title name) min_conf
                        then None else Some body)).
  { unfold find_secton. cbn [OrderedDict.keys map py_max bind].
    fold (score k0). change (map fst rest) with (OrderedDict.keys rest).
    change (map (fun t => (t, compare t name))) with (map score).
    change (fst (k0, v0), compare (fst (k0, v0)) name) with (score k0).
    fold best. rewrite <- Hbest. unfold score at 1.
    destruct (Qltb (compare title name) min_conf); [reflexivity|].
    unfold OrderedDict.getitem. rewrite Hsec, get_first; [reflexivity|].
    intros Hin. exact (Qlt_irrefl _ (Hlt _ Hin)). }
  exists pre, title, body, post.
  split; [exact Hsec|]. split; [exact Hlt|]. split; [exact Hle|].
  split; [reflexivity|].
  split; [intros t Ht; now apply compare_ignores_case|].
  split; [intros Hn t; now apply compare_ignores_case|].
  split; [vm_compute; reflexivity|].
  split; [exact Hfind|]. split; [split|].
  - rewrite Hfind. destruct (Qltb (compare title name) min_conf) eqn:E.
    + intros _. now apply Qltb_lt.
    + discriminate.
  - intros H. rewrite Hfind. apply Qltb_lt in H. now rewrite H.
  - intros H. rewrite Hfind.
    destruct (Qltb (compare title name) min_conf) eqn:E; [|reflexivity].
    apply Qltb_lt in E. rewrite H in E. exfalso. exact (Qlt_irrefl _ E).
Qed.

End Resolver.

Section ResolverWitness.

Local Existing Instance latin1.

Lemma find_secton_spec_witness :
  [(py "Usage", py "say hi"); (py "", py "")] <> []
  /\ exists pre title body post,
    [(py "Usage", py "say hi"); (py "", py "")] = pre ++ (title, body) :: post
    /\ (forall t, In t (OrderedDict.keys pre) ->
                  (compare t (py "usage") < compare title (py "usage"))%Q)
    /\ (forall t, In t (OrderedDict.keys post) ->
                  (compare t (py "usage") <= compare title (py "usage"))%Q)
    /\ (forall t, compare t (py "usage")
                  = Difflib.ratio (lower t) (lower (py "usage")))
    /\ (forall t, all_ascii t -> compare (upper t) (py "usage") = compare t (py "usage"))
    /\ (all_ascii (py "usage") ->
        forall t, compare t (upper (py "usage")) = compare t (py "usage"))
    /\ find_secton (py "examples") [(py "EXAMPLES", py "say hi"); ([], [])]
                   (1 # 2)%Q
       = Ok (Some (py "say hi"))
    /\ find_secton (py "usage") [(py "Usage", py "say hi"); (py "", py "")] (1 # 2)%Q
       = Ok (if Qltb (compare title (py "usage")) (1 # 2)%Q then None else Some body)
    /\ (find_secton (py "usage") [(py "Usage", py "say hi"); (py "", py "")] (1 # 2)%Q
        = Ok None
        <-> (compare title (py "usage") < (1 # 2))%Q)
    /\ ((compare title (py "usage") == (1 # 2))%Q ->
        find_secton (py "usage") [(py "Usage", py "say hi"); (py "", py "")] (1 # 2)%Q
        = Ok (Some body)).
Proof.
  split; [discriminate|].
  apply (find_secton_spec (py "usage")
           [(py "Usage", py "say hi"); (py "", py "")] (1 # 2)%Q).
  discriminate.
Defined.

End ResolverWitness.

(** ** Ordered dictionaries *)

Module DictFacts.
Import OrderedDict.

Lemma get_In (k : str) (d : t) : In k (keys d) <-> get k d <> None.
Proof.
  induction d as [|[k' v'] d' IH]; cbn [keys map get fst].
  - tauto.
  - fold (keys d'). destruct (PyStr.eqb k k') eqn:E.
    + apply eqb_spec in E. subst k'. split; [intros _; discriminate|intros _; now left].
    + apply eqb_neq in E. rewrite <- IH. split.
      * intros [H|H]; [congruence|exact H].
      * intros H. now right.
Qed.

Lemma get_Some_In (k v : str) (d : t) : get k d = Some v -> In k (keys d).
Proof. intros H. apply get_In. congruence. Qed.

Lemma In_get (k : str) (d : t) : In k (keys d) -> exists v, get k d = Some v.
Proof.
  intros H. apply get_In in H. destruct (get k d) as [v|]; [now exists v|congruence].
Qed.

Lemma get_set_same (k v : str) (d : t) : get k (set k v d) = Some v.
Proof.
  induction d as [|[k' v'] d' IH]; cbn [set get].
  - now rewrite eqb_refl.
  - destruct (PyStr.eqb k k') eqn:E; cbn [get]; rewrite ?eqb_refl, ?E; auto.
Qed.

Lemma get_set_other (k k' v : str) (d : t) :
  k <> k' -> get k' (set k v d) = get k' d.
Proof.
  intros Hne. induction d as [|[k0 v0] d' IH]; cbn [set get].
  - apply not_eq_sym, eqb_neq in Hne. now rewrite Hne.
  - destruct (PyStr.eqb k k0) eqn:E; cbn [get].
    + apply eqb_spec in E. subst k0.
      apply not_eq_sym, eqb_neq in Hne. now rewrite Hne.
    + now rewrite IH.
Qed.

Lemma set_absent (k v : str) (d : t) :
  ~ In k (keys d) -> set k v d = d ++ [(k, v)].
Proof.
  induction d as [|[k' v'] d' IH]; intros H; cbn [set app].
  - reflexivity.
  - cbn [keys map fst] in H. destruct (PyStr.eqb k k') eqn:E.
    + apply eqb_spec in E. subst k'. exfalso. apply H. now left.
    + f_equal. apply IH. intros Hin. apply H. now right.
Qed.

Lemma set_present (k v : str) (d : t) : In k (keys d) -> keys (set k v d) = keys d.
Proof.
  induction d as [|[k' v'] d' IH]; intros H; cbn [set].
  - contradiction.
  - destruct (PyStr.eqb k k') eqn:E.
    + apply eqb_spec in E. now subst k'.
    + cbn [keys map fst] in *. f_equal. apply IH.
      apply eqb_neq in E. destruct H as [H|H]; [congruence|exact H].
Qed.

Lemma In_keys_set (k k' v : str) (d : t) :
  In k' (keys (set k v d)) <-> k' = k \/ In k' (keys d).
Proof.
  induction d as [|[k0 v0] d' IH]; cbn [set].
  - cbn. intuition.
  - destruct (PyStr.eqb k k0) eqn:E; cbn [keys map fst In]; fold (keys d').
    + apply eqb_spec in E. subst k0. intuition.
    + fold (keys (set k v d')). rewrite IH. intuition.
Qed.

Lemma keys_set (k v : str) (d : t) :
  keys (set k v d) = keys d \/ (~ In k (keys d) /\ keys (set k v d) = keys d ++ [k]).
Proof.
  destruct (in_dec (list_eq_dec N.eq_dec) k (keys d)) as [H|H].
  - left. now apply set_present.
  - right. split; [exact H|]. rewrite set_absent by exact H.
    unfold keys. now rewrite map_app.
Qed.

Lemma NoDup_keys_set (k v : str) (d : t) :
  NoDup (keys d) -> NoDup (keys (set k v d)).
Proof.
  intros H. destruct (keys_set k v d) as [E|[Hk E]]; rewrite E.
  - exact H.
  - apply NoDup_app; [exact H|repeat constructor; intros []|].
    intros x Hx [<-|[]]. contradiction.
Qed.

End DictFacts.

(** ** The section splitter *)

Import DictFacts.

Section Splitter.

Context {U : unicode}.

Lemma initial_state_well_formed : well_formed initial_state.
Proof.
  split; cbn.
  - repeat constructor. intros [].
  - now left.
  - now left.
Qed.

Lemma split_line_well_formed (st : split_state) (line : str) :
  well_formed st ->
  exists st', split_line st line = Ok st' /\ well_formed st'.
Proof.
  intros [Hd Hp Hc]. unfold split_line.
  destruct (startswith (py "#") (strip line)).
  - eexists. split; [reflexivity|]. split; cbn [sections last_section].
    + now apply NoDup_keys_set.
    + apply In_keys_set. now right.
    + apply In_keys_set. now left.
  - destruct (In_get _ _ Hc) as [old Hold].
    unfold OrderedDict.getitem. rewrite Hold. cbn [bind].
    eexists. split; [reflexivity|]. split; cbn [sections last_section].
    + now apply NoDup_keys_set.
    + apply In_keys_set. now right.
    + apply In_keys_set. now left.
Qed.

Lemma split_lines_well_formed (lines : list str) (st : split_state) :
  well_formed st ->
  exists st', split_lines st lines = Ok st' /\ well_formed st'.
Proof.
  revert st. induction lines as [|line lines' IH]; intros st Hwf.
  - now exists st.
  - destruct (split_line_well_formed st line Hwf) as (st1 & E1 & Hwf1).
    destruct (IH st1 Hwf1) as (st2 & E2 & Hwf2).
    exists st2. cbn [split_lines]. rewrite E1. cbn [bind]. auto.
Qed.

Lemma keys_strip_body (d : OrderedDict.t) :
  OrderedDict.keys (map strip_body d) = OrderedDict.keys d.
Proof. unfold OrderedDict.keys. rewrite map_map. reflexivity. Qed.

Lemma set_middle (k v v' : str) (done rest : OrderedDict.t) :
  ~ In k (OrderedDict.keys done) ->
  OrderedDict.set k v' (done ++ (k, v) :: rest) = done ++ (k, v') :: rest.
Proof.
  induction done as [|[k0 v0] done' IH]; intros H; cbn [app OrderedDict.set].
  - now rewrite eqb_refl.
  - cbn [OrderedDict.keys map fst] in H. destruct (PyStr.eqb k k0) eqn:E.
    + apply eqb_spec in E. subst k0. exfalso. apply H. now left.
    + f_equal. apply IH. intros Hin. apply H. now right.
Qed.

Lemma strip_bodies_map (rest done : OrderedDict.t) :
  NoDup (OrderedDict.keys (done ++ rest)) ->
  strip_bodies (OrderedDict.keys rest) (done ++ rest)
  = Ok (done ++ map strip_body rest).
Proof.
  revert done. induction rest as [|[k v] rest' IH]; intros done Hnd.
  - reflexivity.
  - cbn [OrderedDict.keys map fst strip_bodies].
    assert (Hk : ~ In k (OrderedDict.keys done)).
    { unfold OrderedDict.keys in *. rewrite map_app in Hnd. cbn [map fst] in Hnd.
      apply NoDup_remove_2 in Hnd. intros Hin. apply Hnd, in_or_app. now left. }
    unfold OrderedDict.getitem. rewrite get_first by exact Hk. cbn [bind].
    rewrite set_middle by exact Hk.
    change (done ++ (k, strip v) :: rest')
      with (done ++ [(k, strip v)] ++ rest').
    rewrite app_assoc. fold (OrderedDict.keys rest'). rewrite IH.
    + rewrite <- app_assoc. reflexivity.
    + rewrite <- app_assoc. cbn [app].
      unfold OrderedDict.keys in *. rewrite map_app in *. exact Hnd.
Qed.

Lemma NoDup_keys_split (k : str) (d : OrderedDict.t) :
  NoDup (OrderedDict.keys d) -> In k (OrderedDict.keys d) ->
  exists v before after,
    d = before ++ (k, v) :: after
    /\ ~ In k (OrderedDict.keys before) /\ ~ In k (OrderedDict.keys after).
Proof.
  intros Hnd Hin. unfold OrderedDict.keys in Hin.
  apply in_map_iff in Hin as ([k' v] & Hk & Hin). cbn in Hk. subst k'.
  apply in_split in Hin as (before & after & ->).
  exists v, before, after. split; [reflexivity|].
  unfold OrderedDict.keys in *. rewrite map_app in Hnd. cbn [map fst] in Hnd.
  apply NoDup_remove_2 in Hnd. split; intros H; apply Hnd, in_or_app; auto.
Qed.

Lemma remove_middle (k v : str) (before after : OrderedDict.t) :
  ~ In k (OrderedDict.keys before) ->
  OrderedDict.remove k (before ++ (k, v) :: after) = before ++ after.
Proof.
  induction before as [|[k0 v0] before' IH]; intros H; cbn [app OrderedDict.remove].
  - now rewrite eqb_refl.
  - cbn [OrderedDict.keys map fst] in H. destruct (PyStr.eqb k k0) eqn:E.
    + apply eqb_spec in E. subst k0. exfalso. apply H. now left.
    + f_equal. apply IH. intros Hin. apply H. now right.
Qed.

(** The result of the splitter, from the state the loop ends in. *)
Lemma sections_of_lines_shape (lines : list str) :
  exists st body before after,
    split_lines initial_state lines = Ok st
    /\ well_formed st
    /\ map strip_body (sections st) = before ++ ([], body) :: after
    /\ ~ In [] (OrderedDict.keys before) /\ ~ In [] (OrderedDict.keys after)
    /\ sections_of_lines lines = Ok ((before ++ after) ++ [([], body)]).
Proof.
  destruct (split_lines_well_formed lines _ initial_state_well_formed)
    as (st & Est & Hwf).
  assert (Hnd : NoDup (OrderedDict.keys (map strip_body (sections st))))
    by (rewrite keys_strip_body; apply Hwf).
  assert (Hin : In [] (OrderedDict.keys (map strip_body (sections st))))
    by (rewrite keys_strip_body; apply Hwf).
  destruct (NoDup_keys_split [] _ Hnd Hin) as (body & before & after & Eq & Hb & Ha).
  exists st, body, before, after. repeat split; auto; try apply Hwf.
  unfold sections_of_lines. rewrite Est. cbn [bind].
  pose proof (strip_bodies_map (sections st) []) as Hs. cbn [app] in Hs.
  rewrite Hs by apply Hwf. cbn [bind].
  rewrite Eq. unfold OrderedDict.pop, OrderedDict.getitem.
  rewrite get_first by exact Hb. cbn [bind fst snd].
  rewrite remove_middle by exact Hb. f_equal. apply set_absent.
  unfold OrderedDict.keys. rewrite map_app, in_app_iff. tauto.
Qed.

(** C5.  Whatever the document, the section map has one entry with the
    empty key, and it is the last one. *)
Theorem extract_sections_preamble_last (readme_content : str) :
  exists (named : OrderedDict.t) (preamble : str),
    extract_sections readme_content = Ok (named ++ [([], preamble)])
    /\ ~ In [] (OrderedDict.keys named)
    /\ NoDup (OrderedDict.keys (named ++ [([], preamble)])).
Proof.
  destruct (sections_of_lines_shape (PyStr.split nl readme_content))
    as (st & body & before & after & Est & Hwf & Eq & Hb & Ha & E).
  exists (before ++ after), body. split; [exact E|].
  assert (Hn : ~ In [] (OrderedDict.keys (before ++ after))).
  { unfold OrderedDict.keys. rewrite map_app, in_app_iff. tauto. }
  split; [exact Hn|].
  assert (Hnd : NoDup (OrderedDict.keys (before ++ ([], body) :: after))).
  { rewrite <- Eq, keys_strip_body. apply Hwf. }
  unfold OrderedDict.keys in *. rewrite !map_app in *. cbn [map fst] in *.
  apply NoDup_remove_1 in Hnd.
  apply NoDup_app; [exact Hnd|repeat constructor; intros []|].
  intros x Hx [<-|[]]. rewrite in_app_iff in Hn. apply in_app_or in Hx. tauto.
Qed.

End Splitter.

Section Agreement.

Context {U : unicode}.

Lemma str_eq_dec (s t : str) : {s = t} + {s <> t}.
Proof. apply list_eq_dec, N.eq_dec. Qed.

Lemma split_line_agree (k : str) (st1 st2 : split_state) (line : str) :
  well_formed st1 -> well_formed st2 -> agree k st1 st2 ->
  exists st1' st2',
    split_line st1 line = Ok st1' /\ split_line st2 line = Ok st2'
    /\ agree k st1' st2'.
Proof.
  intros Hwf1 Hwf2 [Hc Hg]. unfold split_line.
  destruct (startswith (py "#") (strip line)).
  - do 2 eexists. split; [reflexivity|]. split; [reflexivity|].
    split; cbn [last_section sections]; [reflexivity|].
    destruct (str_eq_dec (strip_chars (py "# ") (strip line)) k) as [->|Hne].
    + now rewrite !get_set_same.
    + now rewrite !get_set_other.
  - destruct (In_get _ _ (wf_cursor _ Hwf1)) as [old1 E1].
    destruct (In_get _ _ (wf_cursor _ Hwf2)) as [old2 E2].
    unfold OrderedDict.getitem. rewrite E1, E2. cbn [bind].
    do 2 eexists. split; [reflexivity|]. split; [reflexivity|].
    split; cbn [last_section sections]; [exact Hc|].
    rewrite <- Hc in *. destruct (str_eq_dec (last_section st1) k) as [Hk|Hne].
    + subst k. rewrite !get_set_same. congruence.
    + now rewrite !get_set_other.
Qed.

Lemma split_lines_agree (k : str) (lines : list str) (st1 st2 : split_state) :
  well_formed st1 -> well_formed st2 -> agree k st1 st2 ->
  exists st1' st2',
    split_lines st1 lines = Ok st1' /\ split_lines st2 lines = Ok st2'
    /\ well_formed st1' /\ well_formed st2' /\ agree k st1' st2'.
Proof.
  revert st1 st2. induction lines as [|line lines' IH]; intros st1 st2 H1 H2 Ha.
  - exists st1, st2. auto.
  - destruct (split_line_agree k st1 st2 line H1 H2 Ha) as (a1 & a2 & E1 & E2 & Ha').
    destruct (split_line_well_formed st1 line H1) as (b1 & F1 & W1).
    destruct (split_line_well_formed st2 line H2) as (b2 & F2 & W2).
    assert (b1 = a1) by congruence. assert (b2 = a2) by congruence. subst b1 b2.
    destruct (IH a1 a2 W1 W2 Ha') as (c1 & c2 & G1 & G2 & R).
    exists c1, c2. cbn [split_lines]. rewrite E1, E2. cbn [bind]. auto.
Qed.

Lemma split_lines_app (l1 l2 : list str) (st : split_state) :
  split_lines st (l1 ++ l2) = (st' <- split_lines st l1 ;; split_lines st' l2).
Proof.
  revert st. induction l1 as [|line l1' IH]; intros st; cbn [app split_lines bind].
  - reflexivity.
  - destruct (split_line st line); cbn [bind]; [apply IH|reflexivity].
Qed.

Lemma get_app (k : str) (d1 d2 : OrderedDict.t) :
  OrderedDict.get k (d1 ++ d2)
  = match OrderedDict.get k d1 with
    | Some v => Some v
    | None => OrderedDict.get k d2
    end.
Proof.
  induction d1 as [|[k' v'] d1' IH]; cbn [app OrderedDict.get].
  - reflexivity.
  - destruct (PyStr.eqb k k'); [reflexivity|exact IH].
Qed.

Lemma get_strip_body (k : str) (d : OrderedDict.t) :
  OrderedDict.get k (map strip_body d) = option_map strip (OrderedDict.get k d).
Proof.
  induction d as [|[k' v'] d' IH]; cbn [map OrderedDict.get strip_body fst snd].
  - reflexivity.
  - destruct (PyStr.eqb k k'); [reflexivity|exact IH].
Qed.

(** Every body of the result is the stripped body of the final state. *)
Lemma sections_of_lines_get (lines : list str) :
  exists st m,
    split_lines initial_state lines = Ok st
    /\ well_formed st
    /\ sections_of_lines lines = Ok m
    /\ NoDup (OrderedDict.keys m)
    /\ (forall k, In k (OrderedDict.keys m) <-> In k (OrderedDict.keys (sections st)))
    /\ forall k, OrderedDict.get k m
                 = option_map strip (OrderedDict.get k (sections st)).
Proof.
  destruct (sections_of_lines_shape lines)
    as (st & body & before & after & Est & Hwf & Eq & Hb & Ha & E).
  exists st, ((before ++ after) ++ [([], body)]).
  assert (Hkeys : forall k, In k (OrderedDict.keys ((before ++ after) ++ [([], body)]))
                            <-> In k (OrderedDict.keys (sections st))).
  { intros k. rewrite <- (keys_strip_body (sections st)), Eq.
    unfold OrderedDict.keys.
    rewrite !map_app. cbn [map fst]. rewrite !in_app_iff. cbn [In]. tauto. }
  assert (Hnd : NoDup (OrderedDict.keys (before ++ ([], body) :: after))).
  { rewrite <- Eq, keys_strip_body. apply Hwf. }
  split; [exact Est|]. split; [exact Hwf|]. split; [exact E|].
  split; [|split; [exact Hkeys|]].
  - clear Hkeys. unfold OrderedDict.keys in *. rewrite !map_app in *.
    cbn [map fst] in *. apply NoDup_remove_1 in Hnd.
    apply NoDup_app; [exact Hnd|repeat constructor; intros []|].
    intros x Hx [<-|[]]. apply in_app_or in Hx. tauto.
  - intros k. rewrite <- get_strip_body, Eq, !get_app.
    cbn [OrderedDict.get]. destruct (OrderedDict.get k before); [reflexivity|].
    destruct (PyStr.eqb k []) eqn:Ek.
    + apply eqb_spec in Ek. subst k.
      destruct (OrderedDict.get [] after) eqn:Eg; [|reflexivity].
      exfalso. apply Ha. eapply get_Some_In. exact Eg.
    + now destruct (OrderedDict.get k after).
Qed.

Lemma split_line_keys (st st' : split_state) (line k : str) :
  split_line st line = Ok st' ->
  In k (OrderedDict.keys (sections st)) -> In k (OrderedDict.keys (sections st')).
Proof.
  unfold split_line. intros E Hk.
  destruct (startswith (py "#") (strip line)).
  - injection E as <-. cbn [sections]. apply In_keys_set. now right.
  - destruct (OrderedDict.getitem (last_section st) (sections st));
      cbn [bind] in E; [|discriminate].
    injection E as <-. cbn [sections]. apply In_keys_set. now right.
Qed.

Lemma split_lines_keys (lines : list str) (st st' : split_state) (k : str) :
  split_lines st lines = Ok st' ->
  In k (OrderedDict.keys (sections st)) -> In k (OrderedDict.keys (sections st')).
Proof.
  revert st. induction lines as [|line lines' IH]; intros st E Hk;
    cbn [split_lines] in E.
  - now injection E as <-.
  - destruct (split_line st line) as [st1|] eqn:E1; cbn [bind] in E; [|discriminate].
    apply (IH st1 E). now apply (split_line_keys st st1 line).
Qed.

Lemma split_line_heading (st : split_state) (heading : str) :
  is_heading heading = true ->
  split_line st heading
  = Ok {| last_section := heading_label heading;
          sections := OrderedDict.set (heading_label heading) [] (sections st) |}.
Proof. intros Hh. unfold split_line. unfold is_heading in Hh. now rewrite Hh. Qed.

(** The body that a label has in the result depends only on the lines from
    the last heading with that label on. *)
Lemma restart_at_heading (before : list str) (heading : str) (after : list str) :
  is_heading heading = true ->
  exists m m',
    sections_of_lines (before ++ heading :: after) = Ok m
    /\ sections_of_lines (heading :: after) = Ok m'
    /\ NoDup (OrderedDict.keys m)
    /\ OrderedDict.get (heading_label heading) m
       = OrderedDict.get (heading_label heading) m'
    /\ exists body, OrderedDict.get (heading_label heading) m = Some body.
Proof.
  intros Hh. set (label := heading_label heading).
  destruct (split_lines_well_formed before _ initial_state_well_formed)
    as (sb & Eb & Wb).
  pose (s1 := {| last_section := label;
                 sections := OrderedDict.set label [] (sections sb) |}).
  pose (s2 := {| last_section := label;
                 sections := OrderedDict.set label [] (sections initial_state) |}).
  assert (W1 : well_formed s1).
  { destruct (split_line_well_formed sb heading Wb) as (x & X & WX).
    rewrite split_line_heading in X by exact Hh. now injection X as <-. }
  assert (W2 : well_formed s2).
  { destruct (split_line_well_formed initial_state heading
                                     initial_state_well_formed) as (x & X & WX).
    rewrite split_line_heading in X by exact Hh. now injection X as <-. }
  assert (Ha : agree label s1 s2).
  { split; [reflexivity|]. unfold s1, s2. cbn [sections].
    now rewrite !get_set_same. }
  destruct (split_lines_agree label after s1 s2 W1 W2 Ha)
    as (c1 & c2 & C1 & C2 & V1 & V2 & _ & Hg).
  destruct (sections_of_lines_get (before ++ heading :: after))
    as (st1 & m & E1 & _ & S1 & N1 & K1 & G1).
  destruct (sections_of_lines_get (heading :: after))
    as (st2 & m' & E2 & _ & S2 & N2 & K2 & G2).
  assert (st1 = c1).
  { rewrite split_lines_app, Eb in E1. cbn [bind split_lines] in E1.
    rewrite split_line_heading in E1 by exact Hh. cbn [bind] in E1.
    fold label in E1. fold s1 in E1. congruence. }
  assert (st2 = c2).
  { cbn [bind split_lines] in E2.
    rewrite split_line_heading in E2 by exact Hh. cbn [bind] in E2.
    fold label in E2. fold s2 in E2. congruence. }
  subst st1 st2. exists m, m'.
  split; [exact S1|]. split; [exact S2|]. split; [exact N1|].
  split; [now rewrite G1, G2, Hg|].
  apply In_get, K1. apply (split_lines_keys after s1 c1 label C1).
  unfold s1. cbn [sections]. apply In_keys_set. now left.
Qed.

End Agreement.

Section NoHeading.

Context {U : unicode}.

Lemma set_get_same (k v : str) (d : OrderedDict.t) :
  OrderedDict.get k d = Some v -> OrderedDict.set k v d = d.
Proof.
  induction d as [|[k' v'] d' IH]; cbn [OrderedDict.get OrderedDict.set].
  - discriminate.
  - destruct (PyStr.eqb k k') eqn:E.
    + apply eqb_spec in E. intros [= ->]. now subst k'.
    + intros H. f_equal. now apply IH.
Qed.

Lemma set_set (k v1 v2 : str) (d : OrderedDict.t) :
  OrderedDict.set k v2 (OrderedDict.set k v1 d) = OrderedDict.set k v2 d.
Proof.
  induction d as [|[k' v'] d' IH]; cbn [OrderedDict.set].
  - now rewrite eqb_refl.
  - destruct (PyStr.eqb k k') eqn:E; cbn [OrderedDict.set].
    + now rewrite eqb_refl.
    + rewrite E. f_equal. exact IH.
Qed.

(** Lines that open no section extend the body under the cursor. *)
Lemma split_lines_body (lines : list str) (st : split_state) (old : str) :
  OrderedDict.get (last_section st) (sections st) = Some old ->
  Forall (fun line => is_heading line = false) lines ->
  split_lines st lines
  = Ok {| last_section := last_section st;
          sections := OrderedDict.set (last_section st) (old ++ body_text lines)
                                      (sections st) |}.
Proof.
  intros Hold Hall. revert st old Hold.
  induction Hall as [|line lines' Hline _ IH]; intros st old Hold.
  - cbn [split_lines body_text map concat]. rewrite app_nil_r.
    rewrite set_get_same by exact Hold. now destruct st.
  - cbn [split_lines]. unfold split_line at 1. unfold is_heading in Hline.
    rewrite Hline. unfold OrderedDict.getitem. rewrite Hold. cbn [bind].
    rewrite (IH _ (old ++ nl :: strip line)); cbn [last_section sections].
    + rewrite set_set. unfold body_text. cbn [map concat].
      now rewrite <- app_assoc.
    + apply get_set_same.
Qed.

Lemma sections_of_lines_no_heading (lines : list str) :
  Forall (fun line => is_heading line = false) lines ->
  sections_of_lines lines = Ok [([], strip (body_text lines))].
Proof.
  intros Hall. unfold sections_of_lines.
  rewrite (split_lines_body lines initial_state [] eq_refl Hall).
  reflexivity.
Qed.

(** ** Similarity with the empty string *)

Lemma blocks_loop_done (a b : str) (rounds : nat) (acc : list Difflib.block) :
  Difflib.blocks_loop a b rounds [] acc = acc.
Proof. destruct rounds; reflexivity. Qed.

Lemma ratio_empty_left (b : str) :
  b <> [] -> Difflib.ratio [] b = (0 # Pos.of_nat (length b))%Q.
Proof.
  destruct b as [|c b']; [contradiction|]. intros _.
  unfold Difflib.ratio, Difflib.get_matching_blocks. cbn [length Nat.add].
  cbn [Difflib.blocks_loop]. unfold Difflib.find_longest_match.
  cbn [Nat.sub seq Difflib.scan_rows Difflib.extend Difflib.extend_left
       Difflib.extend_right Nat.add Nat.eqb].
  rewrite blocks_loop_done. reflexivity.
Qed.

Lemma lower_char_nonempty (before : str) (c : N) (after : str) :
  lower_char before c after <> [].
Proof.
  unfold lower_char. destruct (is_ascii c) eqn:E; [discriminate|].
  now apply ext_lower_nonempty.
Qed.

Lemma lower_nil : lower [] = [].
Proof. reflexivity. Qed.

Lemma lower_nonempty (s : str) : s <> [] -> lower s <> [].
Proof.
  destruct s as [|c rest]; [contradiction|]. intros _ E.
  unfold lower in E. cbn [lower_from] in E.
  apply app_eq_nil in E as [E _]. now apply lower_char_nonempty in E.
Qed.

Lemma compare_empty_label (name : str) :
  name <> [] -> compare [] name = (0 # Pos.of_nat (length (lower name)))%Q.
Proof.
  intros H. unfold compare. rewrite lower_nil.
  apply ratio_empty_left. now apply lower_nonempty.
Qed.

Lemma find_secton_preamble_only (name body : str) (min_conf : Q) :
  name <> [] -> (0 < min_conf)%Q ->
  find_secton name [([], body)] min_conf = Ok None.
Proof.
  intros Hname Hpos. unfold find_secton.
  cbn [OrderedDict.keys map fst py_max max_from bind].
  rewrite compare_empty_label by exact Hname.
  assert (H : Qltb (0 # Pos.of_nat (length (lower name))) min_conf = true).
  { apply Qltb_lt. unfold Qlt in *. cbn in *. lia. }
  now rewrite H.
Qed.

(** C7.  A document without a heading line gives the section map that has
    the empty label as its only entry, and on that map no lookup of a
    field name succeeds: not at the thresholds 0.5 and 0.9 of the
    assembler, nor for any other non-empty name and positive threshold. *)
Theorem no_heading_document (readme_content : str) :
  Forall (fun line => is_heading line = false) (PyStr.split nl readme_content) ->
  exists preamble,
    extract_sections readme_content = Ok [([], preamble)]
    /\ preamble = strip (body_text (PyStr.split nl readme_content))
    /\ (forall name, In name field_names ->
          find_secton name [([], preamble)] (1 # 2)%Q = Ok None
          /\ find_secton name [([], preamble)] (9 # 10)%Q = Ok None)
    /\ (forall name min_conf, name <> [] -> (0 < min_conf)%Q ->
          find_secton name [([], preamble)] min_conf = Ok None).
Proof.
  intros Hall. eexists. split; [|split; [reflexivity|split]].
  - unfold extract_sections. now apply sections_of_lines_no_heading.
  - intros name Hin.
    assert (Hne : name <> []).
    { intros ->. cbn in Hin. repeat destruct Hin as [Hin|Hin]; try discriminate.
      exact Hin. }
    split; apply find_secton_preamble_only; auto; reflexivity.
  - intros name min_conf. apply find_secton_preamble_only.
Qed.

End NoHeading.

Section NoHeadingWitness.

Local Existing Instance latin1.

Lemma no_heading_document_witness :
  Forall (fun line => is_heading line = false)
         (PyStr.split nl (py "just text" ++ [nl] ++ py " more text "))
  /\ exists preamble,
    extract_sections (py "just text" ++ [nl] ++ py " more text ")
    = Ok [([], preamble)]
    /\ preamble
       = strip (body_text (PyStr.split nl (py "just text" ++ [nl] ++ py " more text ")))
    /\ (forall name, In name field_names ->
          find_secton name [([], preamble)] (1 # 2)%Q = Ok None
          /\ find_secton name [([], preamble)] (9 # 10)%Q = Ok None)
    /\ (forall name min_conf, name <> [] -> (0 < min_conf)%Q ->
          find_secton name [([], preamble)] min_conf = Ok None).
Proof.
  assert (H : Forall (fun line => is_heading line = false)
                (PyStr.split nl (py "just text" ++ [nl] ++ py " more text "))).
  { vm_compute. repeat constructor. }
  split; [exact H|].
  apply (no_heading_document (py "just text" ++ [nl] ++ py " more text ") H).
Defined.

End NoHeadingWitness.

Section Resets.

Context {U : unicode}.

(** ** Headings that reset a body *)

Lemma sections_of_lines_empty_heading (heading : str) (after : list str) :
  is_heading heading = true -> heading_label heading = [] ->
  sections_of_lines (heading :: after) = sections_of_lines after.
Proof.
  intros Hh Hl. unfold sections_of_lines. cbn [split_lines].
  rewrite split_line_heading by exact Hh. rewrite Hl. reflexivity.
Qed.

Lemma body_after_heading (heading : str) (after : list str) (m : OrderedDict.t) :
  is_heading heading = true ->
  Forall (fun line => is_heading line = false) after ->
  sections_of_lines (heading :: after) = Ok m ->
  OrderedDict.get (heading_label heading) m = Some (strip (body_text after)).
Proof.
  intros Hh Hall Hm.
  destruct (sections_of_lines_get (heading :: after))
    as (st & m' & E & _ & S' & _ & _ & G).
  assert (m' = m) by congruence. subst m'. rewrite G.
  cbn [split_lines] in E. rewrite split_line_heading in E by exact Hh.
  cbn [bind] in E.
  rewrite (split_lines_body after _ []) in E; cbn [last_section sections].
  - injection E as <-. cbn [sections app]. now rewrite get_set_same.
  - apply get_set_same.
  - exact Hall.
Qed.

(** After a heading with the empty label the splitter is back where it
    began, as far as the empty label goes. *)
Lemma empty_label_restarts
      (before : list str) (heading : str) (after : list str) :
  is_heading heading = true ->
  heading_label heading = [] ->
  exists m m',
    sections_of_lines (before ++ heading :: after) = Ok m
    /\ sections_of_lines after = Ok m'
    /\ OrderedDict.get [] m = OrderedDict.get [] m'
    /\ (Forall (fun line => is_heading line = false) after ->
        OrderedDict.get [] m = Some (strip (body_text after))).
Proof.
  intros Hh Hl.
  destruct (restart_at_heading before heading after Hh)
    as (m & m' & Em & Em' & _ & Hg & _).
  rewrite Hl in Hg. exists m, m'.
  split; [exact Em|].
  split; [now rewrite <- (sections_of_lines_empty_heading heading after Hh Hl)|].
  split; [exact Hg|].
  intros Hall. rewrite Hg, <- Hl. now apply body_after_heading.
Qed.

Lemma drop_while_Forall (P : N -> Prop) (p : N -> bool) (s : str) :
  Forall P s -> Forall P (drop_while p s).
Proof.
  induction 1 as [|c s' Hc Hs IH]; cbn [drop_while].
  - constructor.
  - destruct (p c); [exact IH|now constructor].
Qed.

Lemma drop_while_all (p : N -> bool) (s : str) :
  Forall (fun c => p c = true) s -> drop_while p s = [].
Proof.
  induction 1 as [|c s' Hc _ IH]; cbn [drop_while]; [reflexivity|].
  now rewrite Hc.
Qed.

Lemma drop_while_keeps_last (p : N -> bool) (s : str) (c : N) :
  p c = false -> drop_while p (s ++ [c]) = drop_while p s ++ [c].
Proof.
  intros Hc. induction s as [|d s' IH]; cbn [app drop_while].
  - now rewrite Hc.
  - destruct (p d); [exact IH|reflexivity].
Qed.

Lemma drop_while_keeps (p : N -> bool) (s : str) (c : N) :
  p c = false -> In c s -> In c (drop_while p s).
Proof.
  intros Hc. induction s as [|d s' IH]; intros Hin; cbn [drop_while].
  - contradiction.
  - destruct (p d) eqn:Hd; [|exact Hin].
    apply IH. destruct Hin as [->|Hin]; [congruence|exact Hin].
Qed.

Lemma drop_while_head (p : N -> bool) (s : str) (c : N) (rest : str) :
  drop_while p s = c :: rest -> p c = false.
Proof.
  induction s as [|d s' IH]; cbn [drop_while]; [discriminate|].
  destruct (p d) eqn:Hd; [exact IH|]. now intros [= <- _].
Qed.

Lemma rstrip_by_head (p : N -> bool) (c : N) (rest : str) :
  p c = false ->
  rstrip_by p (c :: rest) = c :: rev (drop_while p (rev rest)).
Proof.
  intros Hc. unfold rstrip_by. cbn [rev].
  rewrite drop_while_keeps_last by exact Hc. apply rev_unit.
Qed.

(** A line of heading markers and spaces with a marker in it is a heading
    line, and its label is empty. *)
Lemma marker_only_heading (line : str) :
  marker_only line -> is_heading line = true /\ heading_label line = [].
Proof.
  intros [Hall Hin].
  assert (Hstrip : Forall (fun c => c = (chr "#") \/ c = sp) (strip line)).
  { unfold strip, strip_by, rstrip_by, lstrip_by.
    apply Forall_rev, drop_while_Forall, Forall_rev, drop_while_Forall, Hall. }
  split.
  - unfold is_heading, strip, strip_by, lstrip_by.
    pose proof (drop_while_keeps isspace line (chr "#") eq_refl Hin) as Hin'.
    pose proof (drop_while_Forall _ isspace line Hall) as Hall'.
    destruct (drop_while isspace line) as [|c rest] eqn:E; [contradiction|].
    pose proof (drop_while_head _ _ c rest E) as Hc.
    assert (c = (chr "#")).
    { apply Forall_inv in Hall'. destruct Hall' as [->| ->];
        [reflexivity|discriminate]. }
    subst c. now rewrite rstrip_by_head.
  - unfold heading_label, strip_chars, strip_by, lstrip_by.
    rewrite drop_while_all; [reflexivity|].
    eapply Forall_impl; [|exact Hstrip].
    intros c [->| ->]; reflexivity.
Qed.

(** C9.  A line of heading markers and spaces, such as a lone "#", is a
    heading line with the empty label.  It puts the cursor back on the
    empty label and empties its body: the empty-key entry of the result is
    the one that the lines after that heading give by themselves, whatever
    text came before; when no heading follows, it is the stripped text of
    the lines after it. *)
Theorem empty_heading_resets_preamble
        (readme_content : str) (before : list str) (heading : str)
        (after : list str) :
  PyStr.split nl readme_content = before ++ heading :: after ->
  marker_only heading ->
  is_heading heading = true
  /\ heading_label heading = []
  /\ exists m m',
    extract_sections readme_content = Ok m
    /\ sections_of_lines after = Ok m'
    /\ OrderedDict.get [] m = OrderedDict.get [] m'
    /\ (Forall (fun line => is_heading line = false) after ->
        OrderedDict.get [] m = Some (strip (body_text after))).
Proof.
  intros Hsplit Hmarker.
  destruct (marker_only_heading heading Hmarker) as [Hh Hl].
  split; [exact Hh|]. split; [exact Hl|].
  unfold extract_sections. rewrite Hsplit.
  now apply empty_label_restarts.
Qed.


(** The text before the first heading can be lost in this way. *)
Example preamble_lost :
  extract_sections (py "intro" ++ [nl] ++ py "#" ++ [nl] ++ py "# Title"
                      ++ [nl] ++ py "body")
  = Ok [(py "Title", py "body"); ([], [])]
  /\ extract_sections (py "intro" ++ [nl] ++ py "#" ++ [nl] ++ py "after")
     = Ok [([], py "after")].
Proof. split; vm_compute; reflexivity. Qed.

(** C10.  When two heading lines give the same label, the body of that
    label in the result is the one that the lines from the second heading
    on give by themselves: nothing of what followed the first heading is
    in it, and the label has one entry; when no heading follows the
    second one, the body is the stripped text of the lines after it. *)
Theorem repeated_heading_keeps_last_body
        (readme_content : str) (before : list str) (first : str)
        (between : list str) (second : str) (after : list str) :
  PyStr.split nl readme_content = before ++ first :: between ++ second :: after ->
  is_heading first = true ->
  is_heading second = true ->
  heading_label first = heading_label second ->
  exists m m',
    extract_sections readme_content = Ok m
    /\ sections_of_lines (second :: after) = Ok m'
    /\ NoDup (OrderedDict.keys m)
    /\ OrderedDict.get (heading_label second) m
       = OrderedDict.get (heading_label second) m'
    /\ (exists body, OrderedDict.get (heading_label second) m = Some body)
    /\ (Forall (fun line => is_heading line = false) after ->
        OrderedDict.get (heading_label second) m
        = Some (strip (body_text after))).
Proof.
  intros Hsplit _ Hh _.
  destruct (restart_at_heading (before ++ first :: between) second after Hh)
    as (m & m' & Em & Em' & Hnd & Hg & Hbody).
  exists m, m'. unfold extract_sections. rewrite Hsplit.
  rewrite <- app_assoc in Em. cbn [app] in Em.
  split; [exact Em|]. split; [exact Em'|]. split; [exact Hnd|].
  split; [exact Hg|]. split; [exact Hbody|].
  intros Hall. rewrite Hg. now apply body_after_heading.
Qed.


(** The first body is gone from the result. *)
Example first_body_lost :
  extract_sections (py "# Use" ++ [nl] ++ py "one" ++ [nl] ++ py "## Use"
                      ++ [nl] ++ py "two")
  = Ok [(py "Use", py "two"); ([], [])].
Proof. vm_compute. reflexivity. Qed.

End Resets.

Section ResetsWitness.

Local Existing Instance latin1.

Lemma empty_heading_resets_preamble_witness :
  PyStr.split nl (py "intro" ++ [nl] ++ py "# #" ++ [nl] ++ py "after")
  = [py "intro"] ++ py "# #" :: [py "after"]
  /\ marker_only (py "# #")
  /\ is_heading (py "# #") = true
  /\ heading_label (py "# #") = []
  /\ exists m m',
    extract_sections (py "intro" ++ [nl] ++ py "# #" ++ [nl] ++ py "after") = Ok m
    /\ sections_of_lines [py "after"] = Ok m'
    /\ OrderedDict.get [] m = OrderedDict.get [] m'
    /\ (Forall (fun line => is_heading line = false) [py "after"] ->
        OrderedDict.get [] m = Some (strip (body_text [py "after"]))).
Proof.
  assert (Hm : marker_only (py "# #")).
  { split; [|now left].
    repeat (apply Forall_cons; [first [now left|now right]|]). constructor. }
  split; [reflexivity|]. split; [exact Hm|].
  apply (empty_heading_resets_preamble
           (py "intro" ++ [nl] ++ py "# #" ++ [nl] ++ py "after")
           [py "intro"] (py "# #") [py "after"] eq_refl Hm).
Defined.

Lemma repeated_heading_keeps_last_body_witness :
  PyStr.split nl (py "# Use" ++ [nl] ++ py "one" ++ [nl] ++ py "## Use"
                    ++ [nl] ++ py "two")
  = [] ++ py "# Use" :: [py "one"] ++ py "## Use" :: [py "two"]
  /\ is_heading (py "# Use") = true
  /\ is_heading (py "## Use") = true
  /\ heading_label (py "# Use") = heading_label (py "## Use")
  /\ exists m m',
    extract_sections (py "# Use" ++ [nl] ++ py "one" ++ [nl] ++ py "## Use"
                        ++ [nl] ++ py "two") = Ok m
    /\ sections_of_lines (py "## Use" :: [py "two"]) = Ok m'
    /\ NoDup (OrderedDict.keys m)
    /\ OrderedDict.get (heading_label (py "## Use")) m
       = OrderedDict.get (heading_label (py "## Use")) m'
    /\ (exists body, OrderedDict.get (heading_label (py "## Use")) m = Some body)
    /\ (Forall (fun line => is_heading line = false) [py "two"] ->
        OrderedDict.get (heading_label (py "## Use")) m
        = Some (strip (body_text [py "two"]))).
Proof.
  split; [reflexivity|]. split; [reflexivity|]. split; [reflexivity|].
  split; [reflexivity|].
  apply (repeated_heading_keeps_last_body
           (py "# Use" ++ [nl] ++ py "one" ++ [nl] ++ py "## Use"
              ++ [nl] ++ py "two")
           [] (py "# Use") [py "one"] (py "## Use") [py "two"]); reflexivity.
Defined.

End ResetsWitness.

Section TitleResolver.

Context {U : unicode}.

(** ** The title resolver *)

(** C6.  On a section map with a first entry and an entry for the empty
    label, [find_title_info] scores the normalised first label (lower-cased,
    hyphens turned into spaces) against the normalised skill name.  At 0.3
    or more it returns the first label with its first character replaced by
    its upper case, the rest as it is, and the body of that label; below
    0.3 it returns the title-cased normalised skill name and the body of
    the empty label.  For the skill "weather-skill" the headings "Weather"
    and "weather" score 14/20 and give the title "Weather" with their own
    body, and the heading "Overview" scores 6/21 and gives the title
    "Weather Skill" with the body of the empty label. *)
Theorem find_title_info_spec
        (sections : OrderedDict.t) (skill_name : str)
        (first_label first_body : str) (rest : OrderedDict.t) (preamble : str) :
  sections = (first_label, first_body) :: rest ->
  OrderedDict.get [] sections = Some preamble ->
  let score := Difflib.ratio (lower (norm first_label)) (lower (norm skill_name)) in
  compare (norm first_label) (norm skill_name) = score
  /\ norm first_label = map (fun c => if N.eqb c (chr "-") then sp else c)
                            (lower first_label)
  /\ ((3 # 10 <= score)%Q ->
      find_title_info sections skill_name = Ok (caps first_label, first_body))
  /\ ((score < 3 # 10)%Q ->
      find_title_info sections skill_name = Ok (title (norm skill_name), preamble))
  /\ (forall c tail, caps (c :: tail) = upper_char c ++ tail)
  /\ (forall body intro,
         find_title_info [(py "Weather", body); ([], intro)] (py "weather-skill")
         = Ok (py "Weather", body)
         /\ find_title_info [(py "weather", body); ([], intro)] (py "weather-skill")
            = Ok (py "Weather", body)
         /\ find_title_info [(py "Overview", body); ([], intro)] (py "weather-skill")
            = Ok (py "Weather Skill", intro))
  /\ compare (norm (py "Weather")) (norm (py "weather-skill")) = (14 # 20)%Q
  /\ compare (norm (py "Overview")) (norm (py "weather-skill")) = (6 # 21)%Q
  /\ norm (py "Weather-Skill") = py "weather skill"
  /\ title (py "weather skill") = py "Weather Skill"
  /\ title (py "mY cOOL sKILL 2go") = py "My Cool Skill 2Go".
Proof.
  intros -> Hpre score. split; [reflexivity|]. split; [reflexivity|].
  unfold find_title_info. cbn [OrderedDict.keys map fst].
  fold (OrderedDict.keys rest). change (compare (norm first_label) (norm skill_name)) with score.
  split; [|split].
  - intros H. apply Qle_bool_iff in H. rewrite H.
    unfold OrderedDict.getitem. cbn [OrderedDict.get]. now rewrite eqb_refl.
  - intros H. destruct (Qle_bool (3 # 10) score) eqn:E.
    + apply Qle_bool_iff in E. exfalso. exact (Qlt_not_le _ _ H E).
    + unfold OrderedDict.getitem. now rewrite Hpre.
  - split; [exact caps_cons|].
    split; [intros body intro; repeat split; vm_compute; reflexivity|].
    repeat split; vm_compute; reflexivity.
Qed.

(** The two sample headings for the skill "weather-skill", from the text of
    the document on. *)
Example title_samples :
  compare (norm (py "Weather")) (norm (py "weather-skill")) = (14 # 20)%Q
  /\ compare (norm (py "Overview")) (norm (py "weather-skill")) = (6 # 21)%Q
  /\ (sections <- extract_sections (py "intro" ++ [nl] ++ py "# Weather" ++ [nl]
                                      ++ py "Tells the weather") ;;
      find_title_info sections (py "weather-skill"))
     = Ok (py "Weather", py "Tells the weather")
  /\ (sections <- extract_sections (py "intro" ++ [nl] ++ py "# Overview" ++ [nl]
                                      ++ py "Tells the weather") ;;
      find_title_info sections (py "weather-skill"))
     = Ok (py "Weather Skill", py "intro").
Proof. repeat split; vm_compute; reflexivity. Qed.

(** On the section map of a document the resolver raises no exception. *)
Lemma find_title_info_total (readme_content skill_name : str) :
  exists sections title_and_body,
    extract_sections readme_content = Ok sections
    /\ find_title_info sections skill_name = Ok title_and_body.
Proof.
  destruct (sections_of_lines_shape (PyStr.split nl readme_content))
    as (st & preamble & before & after & _ & _ & _ & Hb & Ha & E).
  fold (extract_sections readme_content) in E.
  set (named := before ++ after) in *.
  assert (Hg : OrderedDict.get [] (named ++ [([], preamble)]) = Some preamble).
  { apply get_first. unfold named, OrderedDict.keys.
    rewrite map_app, in_app_iff. tauto. }
  assert (Hfirst : exists k v rest, named ++ [([], preamble)] = (k, v) :: rest).
  { destruct named as [|[k v] named']; cbn [app]; eauto. }
  destruct Hfirst as (k & v & rest & Hfirst).
  rewrite Hfirst in E, Hg.
  exists ((k, v) :: rest). unfold find_title_info.
  unfold OrderedDict.getitem. rewrite Hg.
  cbn [OrderedDict.keys map fst OrderedDict.get]. rewrite eqb_refl.
  destruct (Qle_bool _ _); eexists; (split; [exact E|reflexivity]).
Qed.

End TitleResolver.

Section TitleResolverWitness.

Local Existing Instance latin1.

Lemma find_title_info_spec_witness :
  [(py "Weather", py "Tells the weather"); ([], py "intro")]
  = (py "Weather", py "Tells the weather") :: [([], py "intro")]
  /\ OrderedDict.get [] [(py "Weather", py "Tells the weather"); ([], py "intro")]
     = Some (py "intro")
  /\ find_title_info [(py "Weather", py "Tells the weather"); ([], py "intro")]
                     (py "weather-skill")
     = Ok (caps (py "Weather"), py "Tells the weather").
Proof.
  split; [reflexivity|]. split; [reflexivity|].
  destruct (find_title_info_spec
              [(py "Weather", py "Tells the weather"); ([], py "intro")]
              (py "weather-skill") (py "Weather") (py "Tells the weather")
              [([], py "intro")] (py "intro") eq_refl eq_refl)
    as (_ & _ & H & _).
  apply H. vm_compute. discriminate.
Defined.

End TitleResolverWitness.

(** ** The rounds of [get_matching_blocks] suffice *)

Section MatchingBlocks.

Variables a b : str.

Lemma j2lenget_bounded (alo blo i : nat) (j2len : list (nat * nat)) (j : nat) :
  Forall (entry_bounded alo blo i) j2len ->
  Difflib.j2lenget j2len j <= i - alo
  /\ (Difflib.j2lenget j2len j = 0 \/
      (blo <= j /\ Difflib.j2lenget j2len j <= j + 1 - blo)).
Proof.
  induction 1 as [|[j' k] rest [Hk [Hj Hkj]] _ IH]; cbn [Difflib.j2lenget].
  - split; [lia|now left].
  - destruct (j =? j') eqn:E; [|exact IH].
    apply Nat.eqb_eq in E. subst j'. split; [exact Hk|right; auto].
Qed.

Lemma scan_row_bounds (alo ahi blo bhi i : nat) (js : list nat)
      (j2len newj2len : list (nat * nat)) (best : Difflib.block) :
  alo <= i < ahi ->
  Forall (entry_bounded alo blo i) j2len ->
  Forall (entry_bounded alo blo (S i)) newj2len ->
  block_within alo ahi blo bhi best ->
  let '(out, best') := Difflib.scan_row blo bhi i js j2len newj2len best in
  Forall (entry_bounded alo blo (S i)) out /\ block_within alo ahi blo bhi best'.
Proof.
  intros Hi Hold. revert newj2len best.
  induction js as [|j js' IH]; intros newj2len best Hnew Hbest;
    cbn [Difflib.scan_row].
  - auto.
  - destruct (j <? blo) eqn:Eblo; [now apply IH|].
    destruct (bhi <=? j) eqn:Ebhi; [auto|].
    apply Nat.ltb_ge in Eblo. apply Nat.leb_gt in Ebhi.
    destruct best as [[bi bj] bk].
    set (k := match j with 0 => 0 | S j' => Difflib.j2lenget j2len j' end + 1).
    assert (Hk : k <= S i - alo /\ k <= j + 1 - blo /\ 1 <= k).
    { unfold k. destruct j as [|j'].
      - lia.
      - destruct (j2lenget_bounded alo blo i j2len j' Hold) as [H1 [H2|H2]]; lia. }
    clearbody k. apply IH.
    + constructor; [|exact Hnew]. unfold entry_bounded. lia.
    + destruct (bk <? k); [|exact Hbest]. unfold block_within. lia.
Qed.

Lemma scan_rows_bounds (alo ahi blo bhi : nat) (n i : nat)
      (j2len : list (nat * nat)) (best : Difflib.block) :
  alo <= i -> i + n <= ahi ->
  Forall (entry_bounded alo blo i) j2len ->
  block_within alo ahi blo bhi best ->
  block_within alo ahi blo bhi
               (Difflib.scan_rows a b blo bhi (seq i n) j2len best).
Proof.
  revert i j2len best. induction n as [|n' IH]; intros i j2len best Hi Hn Hj Hb;
    cbn [seq Difflib.scan_rows].
  - exact Hb.
  - pose proof (scan_row_bounds alo ahi blo bhi i
                  (Difflib.b2j b (Difflib.nth_char a i)) j2len [] best) as H.
    destruct (Difflib.scan_row blo bhi i (Difflib.b2j b (Difflib.nth_char a i))
                               j2len [] best) as [newj2len best'].
    destruct H as [Hnew Hbest']; [lia|exact Hj|constructor|exact Hb|].
    apply IH; [lia|lia|exact Hnew|exact Hbest'].
Qed.

Lemma extend_left_bounds (junk : bool) (alo ahi blo bhi besti bestj bestsize : nat) :
  block_within alo ahi blo bhi (besti, bestj, bestsize) ->
  block_within alo ahi blo bhi
               (Difflib.extend_left a b junk alo blo besti bestj bestsize).
Proof.
  revert bestj bestsize. induction besti as [|i' IH]; intros bestj bestsize H.
  - exact H.
  - cbn [Difflib.extend_left]. destruct bestj as [|j']; [exact H|].
    destruct ((alo <? S i') && (blo <? S j')
              && Bool.eqb (Difflib.isbjunk (Difflib.nth_char b j')) junk
              && N.eqb (Difflib.nth_char a i') (Difflib.nth_char b j')) eqn:E;
      [|exact H].
    apply andb_true_iff in E as [E _]. apply andb_true_iff in E as [E _].
    apply andb_true_iff in E as [E1 E2].
    apply Nat.ltb_lt in E1, E2. apply IH. cbn in *. lia.
Qed.

Lemma extend_right_bounds (junk : bool)
      (rounds alo ahi blo bhi besti bestj bestsize : nat) :
  block_within alo ahi blo bhi (besti, bestj, bestsize) ->
  block_within alo ahi blo bhi
               (Difflib.extend_right a b junk rounds ahi bhi besti bestj bestsize).
Proof.
  revert bestsize. induction rounds as [|r IH]; intros bestsize H.
  - exact H.
  - cbn [Difflib.extend_right].
    destruct ((besti + bestsize <? ahi) && (bestj + bestsize <? bhi)
              && Bool.eqb (Difflib.isbjunk
                             (Difflib.nth_char b (bestj + bestsize))) junk
              && N.eqb (Difflib.nth_char a (besti + bestsize))
                           (Difflib.nth_char b (bestj + bestsize))) eqn:E;
      [|exact H].
    apply andb_true_iff in E as [E _]. apply andb_true_iff in E as [E _].
    apply andb_true_iff in E as [E1 E2].
    apply Nat.ltb_lt in E1, E2. apply IH. cbn in *. lia.
Qed.

(** The rounds given to the loop to the right are enough. *)
Lemma extend_right_rounds (junk : bool)
      (r1 r2 ahi bhi besti bestj bestsize : nat) :
  ahi - (besti + bestsize) <= r1 -> ahi - (besti + bestsize) <= r2 ->
  Difflib.extend_right a b junk r1 ahi bhi besti bestj bestsize
  = Difflib.extend_right a b junk r2 ahi bhi besti bestj bestsize.
Proof.
  revert r2 bestsize. induction r1 as [|r1' IH]; intros r2 bestsize H1 H2.
  - destruct r2 as [|r2']; [reflexivity|]. cbn [Difflib.extend_right].
    assert (E : (besti + bestsize <? ahi) = false) by (apply Nat.ltb_ge; lia).
    now rewrite E.
  - destruct r2 as [|r2']; cbn [Difflib.extend_right].
    + assert (E : (besti + bestsize <? ahi) = false) by (apply Nat.ltb_ge; lia).
      now rewrite E.
    + destruct (besti + bestsize <? ahi) eqn:E; [|reflexivity].
      apply Nat.ltb_lt in E. cbn [andb].
      match goal with
      | |- (if ?c then _ else _) = _ => destruct c; [|reflexivity]
      end.
      apply IH; lia.
Qed.

Lemma extend_bounds (junk : bool) (alo ahi blo bhi : nat) (best : Difflib.block) :
  block_within alo ahi blo bhi best ->
  block_within alo ahi blo bhi (Difflib.extend a b junk alo ahi blo bhi best).
Proof.
  intros H. destruct best as [[bi bj] bk]. unfold Difflib.extend.
  pose proof (extend_left_bounds junk alo ahi blo bhi bi bj bk H) as Hl.
  destruct (Difflib.extend_left a b junk alo blo bi bj bk) as [[i j] k].
  now apply extend_right_bounds.
Qed.

(** The longest match lies inside its window. *)
Lemma find_longest_match_within (alo ahi blo bhi : nat) :
  alo <= ahi -> blo <= bhi ->
  block_within alo ahi blo bhi (Difflib.find_longest_match a b alo ahi blo bhi).
Proof.
  intros Ha Hb. unfold Difflib.find_longest_match.
  do 2 apply extend_bounds.
  apply scan_rows_bounds; [lia|lia|constructor|cbn; lia].
Qed.

(** More rounds than the weight of the queue change nothing: the loop has
    ended, with an empty queue, before they are used up. *)
Lemma blocks_loop_rounds (r1 r2 : nat) (queue : list Difflib.range4)
      (acc : list Difflib.block) :
  Forall range_ordered queue ->
  queue_weight queue <= r1 -> queue_weight queue <= r2 ->
  Difflib.blocks_loop a b r1 queue acc = Difflib.blocks_loop a b r2 queue acc.
Proof.
  revert r2 queue acc. induction r1 as [|r1' IH]; intros r2 queue acc Hq H1 H2.
  - destruct queue as [|[[[alo ahi] blo] bhi] queue'].
    + now rewrite !blocks_loop_done.
    + cbn in H1. lia.
  - destruct queue as [|[[[alo ahi] blo] bhi] queue'].
    + now rewrite !blocks_loop_done.
    + destruct r2 as [|r2']; [cbn in H2; lia|].
      apply Forall_cons_iff in Hq as [[Ha Hb] Hq'].
      cbn [Difflib.blocks_loop].
      pose proof (find_longest_match_within alo ahi blo bhi Ha Hb) as Hw.
      destruct (Difflib.find_longest_match a b alo ahi blo bhi) as [[i j] k].
      cbn [block_within] in Hw. cbn [queue_weight fold_right range_weight] in H1, H2.
      fold (queue_weight queue') in H1, H2.
      destruct (k =? 0) eqn:Ek; [apply IH; [exact Hq'|lia|lia]|].
      apply Nat.eqb_neq in Ek.
      apply IH.
      * destruct ((i + k <? ahi) && (j + k <? bhi)), ((alo <? i) && (blo <? j));
          repeat constructor; try exact Hq'; lia.
      * destruct ((i + k <? ahi) && (j + k <? bhi)), ((alo <? i) && (blo <? j));
          cbn [queue_weight fold_right range_weight]; fold (queue_weight queue'); lia.
      * destruct ((i + k <? ahi) && (j + k <? bhi)), ((alo <? i) && (blo <? j));
          cbn [queue_weight fold_right range_weight]; fold (queue_weight queue'); lia.
Qed.

(** The rounds given to the loop by [get_matching_blocks] are enough. *)
Lemma blocks_loop_enough (rounds : nat) :
  length a + length b + 1 <= rounds ->
  Difflib.blocks_loop a b rounds [(0, length a, 0, length b)] []
  = Difflib.blocks_loop a b (length a + length b + 1)
                        [(0, length a, 0, length b)] [].
Proof.
  intros H. apply blocks_loop_rounds.
  - repeat constructor; lia.
  - cbn. lia.
  - cbn. lia.
Qed.

End MatchingBlocks.

(** * Further properties *)

(** ** The normal form of the whitespace normaliser *)

Lemma squeeze_no_adjacent (p : N -> bool) (r : N) (s : str) (b : bool) :
  p r = true -> adjacent_from p b (squeeze p r b s) = false.
Proof.
  intros Hr. revert b. induction s as [|c s' IH]; intros b.
  - reflexivity.
  - cbn [squeeze]. destruct (p c) eqn:Hc.
    + destruct b; [apply IH|]. cbn [adjacent_from]. rewrite Hr. apply IH.
    + cbn [adjacent_from]. rewrite Hc, andb_false_r. apply IH.
Qed.

Lemma squeeze_fixed (p : N -> bool) (r : N) (s : str) (b : bool) :
  (forall c, p c = true -> c = r) ->
  adjacent_from p b s = false -> squeeze p r b s = s.
Proof.
  intros Hp. revert b. induction s as [|c s' IH]; intros b H.
  - reflexivity.
  - cbn [adjacent_from] in H. apply orb_false_iff in H as [H1 H2].
    cbn [squeeze]. destruct (p c) eqn:Hc.
    + rewrite andb_true_r in H1. subst b.
      assert (c = r) by auto. subst c.
      f_equal. now apply IH.
    + f_equal. now apply IH.
Qed.

Lemma squeeze_length (p : N -> bool) (r : N) (s : str) (b : bool) :
  length (squeeze p r b s) <= length s.
Proof.
  revert b. induction s as [|c s' IH]; intros b; cbn [squeeze length].
  - lia.
  - destruct (p c); [destruct b|]; cbn [length];
      pose proof (IH true); pose proof (IH false); lia.
Qed.

Lemma unwrap_length (s : str) (b : bool) : length (unwrap b s) = length s.
Proof.
  revert b. induction s as [|c s' IH]; intros b; cbn [unwrap length].
  - reflexivity.
  - now rewrite IH.
Qed.

Lemma parse_whitespace_single_spaces (s : str) :
  has_double_space (parse_whitespace s) = false.
Proof. rewrite parse_whitespace_eq. now apply squeeze_no_adjacent. Qed.

(** X1.  The result of the normaliser has no two newlines and no two spaces
    side by side, and it is not longer than the input. *)
Theorem parse_whitespace_normal_form (s : str) :
  has_double_newline (parse_whitespace s) = false
  /\ has_double_space (parse_whitespace s) = false
  /\ length (parse_whitespace s) <= length s.
Proof.
  split; [apply parse_whitespace_single_newlines|].
  split; [apply parse_whitespace_single_spaces|].
  rewrite parse_whitespace_eq, <- (unwrap_length s false).
  etransitivity; [apply squeeze_length|apply squeeze_length].
Qed.

(** X2.  The texts that the normaliser leaves as they are, are the texts
    without a newline and without two spaces side by side. *)
Theorem parse_whitespace_fixed_points (s : str) :
  parse_whitespace s = s
  <-> (Forall not_nl s /\ has_double_space s = false).
Proof.
  split.
  - intros E. split.
    + rewrite <- E. apply parse_whitespace_no_blank_line.
      rewrite <- E. apply parse_whitespace_single_newlines.
    + rewrite <- E. apply parse_whitespace_single_spaces.
  - intros [Hnl Hsp]. rewrite parse_whitespace_eq.
    rewrite (unwrap_id _ false Hnl), (squeeze_id is_nl nl _ false Hnl).
    apply squeeze_fixed; [|exact Hsp].
    intros c Hc. now apply N.eqb_eq in Hc.
Qed.

(** X3.  When the text has two newlines side by side, a second pass changes
    the result of the first. *)
Theorem parse_whitespace_second_pass_differs (s : str) :
  has_double_newline s = true ->
  parse_whitespace (parse_whitespace s) <> parse_whitespace s.
Proof. apply parse_whitespace_twice_differs. Qed.


(** X4.  Two passes of the normaliser reach a text that further passes
    leave alone. *)
Theorem parse_whitespace_stable_after_two (s : str) :
  parse_whitespace (parse_whitespace (parse_whitespace s))
  = parse_whitespace (parse_whitespace s).
Proof. apply parse_whitespace_thrice. Qed.

Lemma parse_whitespace_second_pass_differs_witness :
  has_double_newline (py "one" ++ [nl; nl] ++ py "two") = true
  /\ parse_whitespace (parse_whitespace (py "one" ++ [nl; nl] ++ py "two"))
     <> parse_whitespace (py "one" ++ [nl; nl] ++ py "two").
Proof.
  split; [reflexivity|].
  apply (parse_whitespace_second_pass_differs (py "one" ++ [nl; nl] ++ py "two")).
  reflexivity.
Defined.

Section SentenceAgain.

Context {U : unicode}.

(** ** The sentence formatter, applied again *)

Lemma caps_twice (s : str) : caps (caps s) = caps s.
Proof.
  destruct s as [|c rest]; [reflexivity|]. rewrite caps_cons.
  destruct (upper_char c) as [|u us] eqn:E; [now apply upper_char_nonempty in E|].
  cbn [app]. rewrite caps_cons. now rewrite (upper_char_head c u us E).
Qed.

Lemma caps_app (s t : str) : s <> [] -> caps (s ++ t) = caps s ++ t.
Proof.
  destruct s as [|c rest]; [contradiction|]. intros _.
  cbn [app]. rewrite !caps_cons. now rewrite app_assoc.
Qed.

Lemma caps_length (s : str) : length s <= length (caps s).
Proof.
  destruct s as [|c rest]; [reflexivity|]. rewrite caps_cons, length_app.
  pose proof (upper_char_nonempty c) as H.
  destruct (upper_char c); [contradiction|]. cbn [length]. lia.
Qed.

Lemma isalnum_full_stop : isalnum (chr ".") = false.
Proof. reflexivity. Qed.

Lemma format_sent_last (s : str) :
  match last_char (format_sent s) with
  | Some c => isalnum c = false
  | None => s = []
  end.
Proof.
  destruct s as [|c rest]; [reflexivity|].
  assert (Hs : c :: rest <> []) by discriminate.
  destruct (last_char_nonempty _ (caps_nonempty _ Hs)) as [d Hd].
  rewrite (format_sent_caps _ d Hd). destruct (isalnum d) eqn:E.
  - change (py ".") with [chr "."]. rewrite last_char_app. apply isalnum_full_stop.
  - rewrite app_nil_r, Hd. exact E.
Qed.

Lemma format_sent_twice (s : str) : format_sent (format_sent s) = format_sent s.
Proof.
  destruct s as [|c rest]; [reflexivity|].
  assert (Hs : c :: rest <> []) by discriminate.
  pose proof (caps_nonempty _ Hs) as Hne.
  destruct (last_char_nonempty _ Hne) as [d Hd].
  rewrite (format_sent_caps _ d Hd). destruct (isalnum d) eqn:E.
  - change (py ".") with [chr "."].
    rewrite (format_sent_caps _ (chr ".")).
    + rewrite isalnum_full_stop, app_nil_r, caps_app by exact Hne.
      now rewrite caps_twice.
    + rewrite caps_app by exact Hne. apply last_char_app.
  - rewrite app_nil_r. rewrite (format_sent_caps _ d).
    + now rewrite E, app_nil_r, caps_twice.
    + now rewrite caps_twice.
Qed.

(** X5.  The sentence formatter and the capitaliser are idempotent. *)
Theorem format_sent_idempotent (s : str) :
  format_sent (format_sent s) = format_sent s /\ caps (caps s) = caps s.
Proof. split; [apply format_sent_twice|apply caps_twice]. Qed.

Lemma format_sent_length (s : str) :
  length (caps s) <= length (format_sent s) <= length (caps s) + 1.
Proof.
  destruct s as [|c rest]; [cbn; lia|].
  assert (Hs : c :: rest <> []) by discriminate.
  destruct (last_char_nonempty _ (caps_nonempty _ Hs)) as [d Hd].
  rewrite (format_sent_caps _ d Hd), length_app.
  destruct (isalnum d); cbn [length py list_ascii_of_string map]; lia.
Qed.

(** X6.  A formatted sentence is empty, and then so was the input, or it
    ends in a character that is not alphanumeric.  It is never shorter than
    the input and has at most one character more than the capitalised
    input; when the input starts with a character of the 7-bit range, that
    is at most one character more than the input. *)
Theorem format_sent_ends_in_punctuation (s : str) :
  match last_char (format_sent s) with
  | Some c => isalnum c = false
  | None => s = []
  end
  /\ length s <= length (format_sent s) <= length (caps s) + 1
  /\ (forall c rest,
        s = c :: rest -> is_ascii c = true ->
        length (format_sent s) <= length s + 1).
Proof.
  split; [apply format_sent_last|].
  pose proof (format_sent_length s) as H. pose proof (caps_length s) as H'.
  split; [lia|].
  intros c rest -> Hc. rewrite caps_cons, upper_char_ascii in H by exact Hc.
  cbn [app length] in *. lia.
Qed.

End SentenceAgain.

Section SectionLabels.

Context {U : unicode}.

(** ** What the section map holds *)

Lemma drop_while_twice (p : N -> bool) (s : str) :
  drop_while p (drop_while p s) = drop_while p s.
Proof.
  induction s as [|c s' IH]; cbn [drop_while]; [reflexivity|].
  destruct (p c) eqn:Hc; [exact IH|]. cbn [drop_while]. now rewrite Hc.
Qed.

Lemma strip_by_twice (p : N -> bool) (s : str) :
  strip_by p (strip_by p s) = strip_by p s.
Proof.
  unfold strip_by, lstrip_by.
  assert (Hl : drop_while p (rstrip_by p (drop_while p s))
               = rstrip_by p (drop_while p s)).
  { destruct (drop_while p s) as [|c rest] eqn:E; [reflexivity|].
    pose proof (drop_while_head p s c rest E) as Hc.
    rewrite rstrip_by_head by exact Hc. cbn [drop_while]. now rewrite Hc. }
  rewrite Hl. unfold rstrip_by. now rewrite rev_involutive, drop_while_twice.
Qed.

Lemma In_get_distinct (k v : str) (d : OrderedDict.t) :
  NoDup (OrderedDict.keys d) -> In (k, v) d -> OrderedDict.get k d = Some v.
Proof.
  intros Hnd Hin. apply in_split in Hin as (d1 & d2 & ->).
  apply get_first. unfold OrderedDict.keys in Hnd. rewrite map_app in Hnd.
  cbn [map fst] in Hnd. apply NoDup_remove_2 in Hnd.
  intros H. apply Hnd, in_or_app. now left.
Qed.

Lemma split_lines_labels (lines : list str) (st st' : split_state) (k : str) :
  split_lines st lines = Ok st' ->
  In k (OrderedDict.keys (sections st'))
  <-> In k (OrderedDict.keys (sections st))
      \/ exists line, In line lines /\ is_heading line = true
                      /\ heading_label line = k.
Proof.
  revert st. induction lines as [|line lines' IH]; intros st E;
    cbn [split_lines] in E.
  - injection E as <-. split; [auto|]. intros [H|(line & [] & _)]. exact H.
  - destruct (split_line st line) as [st1|] eqn:E1; cbn [bind] in E; [|discriminate].
    rewrite (IH st1 E). clear IH E.
    assert (H1 : In k (OrderedDict.keys (sections st1))
                 <-> In k (OrderedDict.keys (sections st))
                     \/ (is_heading line = true /\ heading_label line = k)).
    { unfold split_line in E1. unfold is_heading, heading_label.
      destruct (startswith (py "#") (strip line)).
      - injection E1 as <-. cbn [sections]. rewrite In_keys_set. intuition.
      - unfold OrderedDict.getitem in E1.
        destruct (OrderedDict.get (last_section st) (sections st)) as [old|] eqn:Eg;
          cbn [bind] in E1; [|discriminate].
        injection E1 as <-. cbn [sections]. rewrite In_keys_set.
        apply get_Some_In in Eg. split.
        + intros [->|H]; auto.
        + intros [H|[H _]]; [auto|discriminate]. }
    rewrite H1. cbn [In]. split.
    + intros [[H|[Hh Hl]]|(l & Hin & Hh & Hl)]; eauto 6.
    + intros [H|(l & [<-|Hin] & Hh & Hl)]; eauto 6.
Qed.

(** X7.  The labels of the section map are the empty label and the labels
    of the heading lines of the document: no section is dropped and none is
    made up. *)
Theorem extract_sections_labels (readme_content : str) :
  exists m,
    extract_sections readme_content = Ok m
    /\ forall k,
         In k (OrderedDict.keys m)
         <-> k = []
             \/ exists line, In line (PyStr.split nl readme_content)
                             /\ is_heading line = true
                             /\ heading_label line = k.
Proof.
  destruct (sections_of_lines_get (PyStr.split nl readme_content))
    as (st & m & E & _ & S' & _ & K & _).
  exists m. split; [exact S'|]. intros k.
  rewrite K, (split_lines_labels _ _ _ k E). cbn. intuition.
Qed.

(** X8.  Every body of the section map is stripped of surrounding blanks,
    and every label of surrounding heading markers and spaces. *)
Theorem extract_sections_stripped (readme_content : str) :
  exists m,
    extract_sections readme_content = Ok m
    /\ forall k v, In (k, v) m -> strip v = v /\ strip_chars (py "# ") k = k.
Proof.
  destruct (sections_of_lines_get (PyStr.split nl readme_content))
    as (st & m & E & _ & S' & Hnd & K & G).
  exists m. split; [exact S'|]. intros k v Hin. split.
  - pose proof (In_get_distinct k v m Hnd Hin) as Hg. rewrite G in Hg.
    destruct (OrderedDict.get k (sections st)) as [v0|]; [|discriminate].
    injection Hg as <-. apply strip_by_twice.
  - assert (Hk : In k (OrderedDict.keys m)).
    { unfold OrderedDict.keys. apply in_map_iff. now exists (k, v). }
    apply K in Hk. apply (split_lines_labels _ _ _ k E) in Hk.
    destruct Hk as [[<-|[]]|(line & _ & _ & <-)]; [reflexivity|].
    apply strip_by_twice.
Qed.

End SectionLabels.

Section SectionBodies.

Context {U : unicode}.

(** ** The body of a section *)

Lemma split_line_untouched (st st' : split_state) (line k : str) :
  split_line st line = Ok st' ->
  (is_heading line = true -> heading_label line <> k) ->
  (is_heading line = false -> last_section st <> k) ->
  OrderedDict.get k (sections st') = OrderedDict.get k (sections st)
  /\ (is_heading line = true -> last_section st' = heading_label line)
  /\ (is_heading line = false -> last_section st' = last_section st).
Proof.
  unfold split_line, is_heading, heading_label. intros E Hh Hb.
  destruct (startswith (py "#") (strip line)).
  - injection E as <-. cbn [sections last_section].
    split; [apply get_set_other; auto|]. split; [reflexivity|discriminate].
  - destruct (OrderedDict.getitem (last_section st) (sections st));
      cbn [bind] in E; [|discriminate].
    injection E as <-. cbn [sections last_section].
    split; [apply get_set_other; auto|]. split; [discriminate|reflexivity].
Qed.

Lemma split_lines_untouched (lines : list str) (st st' : split_state) (k : str) :
  split_lines st lines = Ok st' ->
  last_section st <> k -> label_absent k lines ->
  OrderedDict.get k (sections st') = OrderedDict.get k (sections st).
Proof.
  revert st. induction lines as [|line lines' IH]; intros st E Hc Ha;
    cbn [split_lines] in E.
  - now injection E as <-.
  - destruct (split_line st line) as [st1|] eqn:E1; cbn [bind] in E; [|discriminate].
    apply Forall_cons_iff in Ha as [Hline Ha].
    destruct (split_line_untouched st st1 line k E1 Hline (fun _ => Hc))
      as (Hg & Hhead & Hbody).
    rewrite <- Hg. apply (IH st1 E); [|exact Ha].
    destruct (is_heading line) eqn:Eh.
    + rewrite (Hhead eq_refl). now apply Hline.
    + now rewrite (Hbody eq_refl).
Qed.

Lemma split_lines_rest_untouched (rest : list str) (st st' : split_state) (k : str) :
  split_lines st rest = Ok st' ->
  starts_with_heading rest -> label_absent k rest ->
  OrderedDict.get k (sections st') = OrderedDict.get k (sections st).
Proof.
  destruct rest as [|h rest']; intros E Hs Ha; cbn [split_lines] in E.
  - now injection E as <-.
  - cbn [starts_with_heading] in Hs.
    destruct (split_line st h) as [st1|] eqn:E1; cbn [bind] in E; [|discriminate].
    apply Forall_cons_iff in Ha as [Hh Ha].
    destruct (split_line_untouched st st1 h k E1 Hh) as (Hg & Hhead & _);
      [congruence|].
    rewrite <- Hg. apply (split_lines_untouched rest' st1 st' k E); [|exact Ha].
    rewrite (Hhead Hs). now apply Hh.
Qed.

(** From a state whose cursor is on [k]: body lines, then lines that begin
    with a heading and never come back to [k]. *)
Lemma split_lines_section (body rest : list str) (st st' : split_state) (old : str) :
  OrderedDict.get (last_section st) (sections st) = Some old ->
  Forall (fun line => is_heading line = false) body ->
  starts_with_heading rest -> label_absent (last_section st) rest ->
  split_lines st (body ++ rest) = Ok st' ->
  OrderedDict.get (last_section st) (sections st')
  = Some (old ++ body_text body).
Proof.
  intros Hold Hbody Hs Ha E. rewrite split_lines_app in E.
  rewrite (split_lines_body body st old Hold Hbody) in E. cbn [bind] in E.
  rewrite (split_lines_rest_untouched rest _ st' (last_section st) E Hs Ha).
  cbn [sections]. apply get_set_same.
Qed.

(** X9.  The body of a section is the stripped text of the lines between
    its heading and the next heading line, provided that no later heading
    has the same label. *)
Theorem section_body
        (readme_content : str) (before : list str) (heading : str)
        (body rest : list str) :
  PyStr.split nl readme_content = before ++ heading :: body ++ rest ->
  is_heading heading = true ->
  Forall (fun line => is_heading line = false) body ->
  starts_with_heading rest ->
  label_absent (heading_label heading) rest ->
  exists m,
    extract_sections readme_content = Ok m
    /\ OrderedDict.get (heading_label heading) m = Some (strip (body_text body)).
Proof.
  intros Hsplit Hh Hbody Hs Ha.
  destruct (sections_of_lines_get (PyStr.split nl readme_content))
    as (st & m & E & _ & S' & _ & _ & G).
  exists m. split; [exact S'|]. rewrite G, Hsplit in *.
  rewrite split_lines_app in E.
  destruct (split_lines initial_state before) as [sb|]; cbn [bind] in E;
    [|discriminate].
  cbn [split_lines] in E. rewrite split_line_heading in E by exact Hh.
  cbn [bind] in E.
  set (s1 := {| last_section := heading_label heading;
                sections := OrderedDict.set (heading_label heading) []
                                            (sections sb) |}) in *.
  assert (Hold : OrderedDict.get (last_section s1) (sections s1) = Some [])
    by apply get_set_same.
  change (heading_label heading) with (last_section s1).
  rewrite (split_lines_section body rest s1 st [] Hold Hbody Hs Ha E).
  reflexivity.
Qed.


(** X10.  The body of the empty label is the stripped text of the lines
    before the first heading line, provided that no heading has the empty
    label. *)
Theorem preamble_body (readme_content : str) (body rest : list str) :
  PyStr.split nl readme_content = body ++ rest ->
  Forall (fun line => is_heading line = false) body ->
  starts_with_heading rest ->
  label_absent [] rest ->
  exists m,
    extract_sections readme_content = Ok m
    /\ OrderedDict.get [] m = Some (strip (body_text body)).
Proof.
  intros Hsplit Hbody Hs Ha.
  destruct (sections_of_lines_get (PyStr.split nl readme_content))
    as (st & m & E & _ & S' & _ & _ & G).
  exists m. split; [exact S'|]. rewrite G, Hsplit in *.
  change (@nil N) with (last_section initial_state) at 1.
  rewrite (split_lines_section body rest initial_state st [] eq_refl
             Hbody Hs Ha E).
  reflexivity.
Qed.

End SectionBodies.

Section SectionBodiesWitness.

Local Existing Instance latin1.

Lemma section_body_witness :
  PyStr.split nl (py "intro" ++ [nl] ++ py "# Use" ++ [nl] ++ py " say hi "
                    ++ [nl] ++ py "# More" ++ [nl] ++ py "x")
  = [py "intro"] ++ py "# Use" :: [py " say hi "] ++ [py "# More"; py "x"]
  /\ is_heading (py "# Use") = true
  /\ Forall (fun line => is_heading line = false) [py " say hi "]
  /\ starts_with_heading [py "# More"; py "x"]
  /\ label_absent (heading_label (py "# Use")) [py "# More"; py "x"]
  /\ exists m,
    extract_sections (py "intro" ++ [nl] ++ py "# Use" ++ [nl] ++ py " say hi "
                        ++ [nl] ++ py "# More" ++ [nl] ++ py "x") = Ok m
    /\ OrderedDict.get (heading_label (py "# Use")) m
       = Some (strip (body_text [py " say hi "])).
Proof.
  assert (Hb : Forall (fun line => is_heading line = false) [py " say hi "])
    by (repeat constructor).
  assert (Ha : label_absent (heading_label (py "# Use")) [py "# More"; py "x"]).
  { repeat constructor; intros _; vm_compute; discriminate. }
  split; [reflexivity|]. split; [reflexivity|]. split; [exact Hb|].
  split; [reflexivity|]. split; [exact Ha|].
  apply (section_body
           (py "intro" ++ [nl] ++ py "# Use" ++ [nl] ++ py " say hi "
              ++ [nl] ++ py "# More" ++ [nl] ++ py "x")
           [py "intro"] (py "# Use") [py " say hi "] [py "# More"; py "x"]
           eq_refl eq_refl Hb eq_refl Ha).
Defined.

Lemma preamble_body_witness :
  PyStr.split nl (py " intro " ++ [nl] ++ py "# Use" ++ [nl] ++ py "x")
  = [py " intro "] ++ [py "# Use"; py "x"]
  /\ Forall (fun line => is_heading line = false) [py " intro "]
  /\ starts_with_heading [py "# Use"; py "x"]
  /\ label_absent [] [py "# Use"; py "x"]
  /\ exists m,
    extract_sections (py " intro " ++ [nl] ++ py "# Use" ++ [nl] ++ py "x") = Ok m
    /\ OrderedDict.get [] m = Some (strip (body_text [py " intro "])).
Proof.
  assert (Hb : Forall (fun line => is_heading line = false) [py " intro "])
    by (repeat constructor).
  assert (Ha : label_absent [] [py "# Use"; py "x"]).
  { repeat constructor; intros _; vm_compute; discriminate. }
  split; [reflexivity|]. split; [exact Hb|]. split; [reflexivity|].
  split; [exact Ha|].
  apply (preamble_body
           (py " intro " ++ [nl] ++ py "# Use" ++ [nl] ++ py "x")
           [py " intro "] [py "# Use"; py "x"] eq_refl Hb eq_refl Ha).
Defined.

End SectionBodiesWitness.

Section SectionOrder.

Context {U : unicode}.

(** ** The order of the sections *)

Lemma keys_set_mem (k v : str) (d : OrderedDict.t) :
  OrderedDict.keys (OrderedDict.set k v d)
  = if existsb (PyStr.eqb k) (OrderedDict.keys d)
    then OrderedDict.keys d else OrderedDict.keys d ++ [k].
Proof.
  induction d as [|[k' v'] d' IH]; cbn [OrderedDict.set OrderedDict.keys map fst existsb].
  - reflexivity.
  - destruct (PyStr.eqb k k') eqn:E; cbn [orb map fst].
    + apply eqb_spec in E. now subst k'.
    + fold (OrderedDict.keys d') in *. fold (OrderedDict.keys (OrderedDict.set k v d')).
      rewrite IH. now destruct (existsb (PyStr.eqb k) (OrderedDict.keys d')).
Qed.

Lemma mem_keys (k : str) (ks : list str) :
  existsb (PyStr.eqb k) ks = true <-> In k ks.
Proof.
  rewrite existsb_exists. split.
  - intros (x & Hin & E). apply eqb_spec in E. now subst x.
  - intros H. exists k. split; [exact H|apply eqb_refl].
Qed.

Lemma first_seen_ext (labels seen1 seen2 : list str) :
  (forall x, existsb (PyStr.eqb x) seen1 = existsb (PyStr.eqb x) seen2) ->
  first_seen seen1 labels = first_seen seen2 labels.
Proof.
  revert seen1 seen2. induction labels as [|l ls IH]; intros seen1 seen2 H;
    cbn [first_seen].
  - reflexivity.
  - rewrite (H l). destruct (existsb (PyStr.eqb l) seen2).
    + now apply IH.
    + f_equal. apply IH. intros x. cbn [existsb]. now rewrite H.
Qed.

Lemma split_lines_order (lines : list str) (st st' : split_state) :
  split_lines st lines = Ok st' ->
  OrderedDict.keys (sections st')
  = OrderedDict.keys (sections st)
      ++ first_seen (OrderedDict.keys (sections st)) (heading_labels lines).
Proof.
  revert st. induction lines as [|line lines' IH]; intros st E;
    cbn [split_lines] in E.
  - injection E as <-. cbn. now rewrite app_nil_r.
  - destruct (split_line st line) as [st1|] eqn:E1; cbn [bind] in E; [|discriminate].
    rewrite (IH st1 E). clear IH E. unfold heading_labels. cbn [filter].
    destruct (is_heading line) eqn:Eh.
    + rewrite split_line_heading in E1 by exact Eh. injection E1 as <-.
      cbn [sections map first_seen]. rewrite keys_set_mem.
      destruct (existsb (PyStr.eqb (heading_label line))
                        (OrderedDict.keys (sections st))); [reflexivity|].
      rewrite <- app_assoc. cbn [app]. do 2 f_equal.
      apply first_seen_ext. intros x. rewrite existsb_app. cbn [existsb].
      rewrite orb_false_r. apply orb_comm.
    + unfold split_line in E1. unfold is_heading in Eh. rewrite Eh in E1.
      unfold OrderedDict.getitem in E1.
      destruct (OrderedDict.get (last_section st) (sections st)) as [old|] eqn:Eg;
        cbn [bind] in E1; [|discriminate].
      injection E1 as <-. cbn [sections]. rewrite keys_set_mem.
      apply get_Some_In, mem_keys in Eg. now rewrite Eg.
Qed.

(** X11.  The labels of the section map come in the order in which the
    heading lines first bring them up, and the empty label comes last. *)
Theorem extract_sections_order (readme_content : str) :
  exists m,
    extract_sections readme_content = Ok m
    /\ OrderedDict.keys m
       = first_seen [[]] (heading_labels (PyStr.split nl readme_content)) ++ [[]].
Proof.
  destruct (sections_of_lines_shape (PyStr.split nl readme_content))
    as (st & body & before & after & Est & _ & Eq & Hb & _ & E).
  eexists. split; [exact E|].
  pose proof (split_lines_order _ _ _ Est) as Hk.
  rewrite <- keys_strip_body, Eq in Hk. cbn [initial_state sections] in Hk.
  unfold OrderedDict.keys in *. rewrite !map_app in *. cbn [map fst app] in *.
  destruct before as [|[k v] before'].
  - cbn [map app] in *. injection Hk as Hk. now rewrite Hk.
  - exfalso. cbn [map fst app] in *. injection Hk as -> _. apply Hb. now left.
Qed.

End SectionOrder.

(** ** The range of the similarity ratio *)

Section RatioBounds.

Variables a b : str.

Lemma block_sum_app (l1 l2 : list Difflib.block) :
  block_sum (l1 ++ l2) = block_sum l1 + block_sum l2.
Proof.
  induction l1 as [|x l1' IH]; cbn [app block_sum fold_right] in *; [reflexivity|].
  fold (block_sum (l1' ++ l2)). fold (block_sum l1'). lia.
Qed.

Lemma blocks_loop_sum (rounds : nat) (queue : list Difflib.range4)
      (acc : list Difflib.block) :
  Forall range_ordered queue ->
  block_sum (Difflib.blocks_loop a b rounds queue acc)
  <= block_sum acc + queue_room queue.
Proof.
  revert queue acc. induction rounds as [|r IH]; intros queue acc Hq.
  - cbn [Difflib.blocks_loop]. lia.
  - destruct queue as [|[[[alo ahi] blo] bhi] queue'].
    + cbn [Difflib.blocks_loop]. lia.
    + apply Forall_cons_iff in Hq as [[Ha Hb] Hq'].
      cbn [Difflib.blocks_loop].
      pose proof (find_longest_match_within a b alo ahi blo bhi Ha Hb) as Hw.
      destruct (Difflib.find_longest_match a b alo ahi blo bhi) as [[i j] k].
      cbn [block_within] in Hw. cbn [queue_room fold_right range_room].
      fold (queue_room queue').
      destruct (k =? 0) eqn:Ek.
      * specialize (IH queue' acc Hq'). lia.
      * apply Nat.eqb_neq in Ek.
        match goal with
        | |- block_sum (Difflib.blocks_loop a b r ?q ?acc') <= _ =>
            assert (Hq2 : Forall range_ordered q
                          /\ queue_room q + k
                             <= Nat.min (ahi - alo) (bhi - blo) + queue_room queue');
            [|specialize (IH q acc' (proj1 Hq2))]
        end.
        { destruct ((i + k <? ahi) && (j + k <? bhi)), ((alo <? i) && (blo <? j));
            (split; [repeat constructor; try exact Hq'; lia|]);
            cbn [queue_room fold_right range_room]; fold (queue_room queue'); lia. }
        rewrite block_sum_app in IH. cbn [block_sum fold_right snd] in IH.
        fold (block_sum acc) in IH. lia.
Qed.

Lemma insert_block_sum (x : Difflib.block) (l : list Difflib.block) :
  block_sum (Difflib.insert_block x l) = snd x + block_sum l.
Proof.
  induction l as [|y l' IH]; cbn [Difflib.insert_block]; [reflexivity|].
  destruct (Difflib.block_leb x y); [reflexivity|].
  cbn [block_sum fold_right] in *. fold (block_sum (Difflib.insert_block x l')).
  fold (block_sum l'). rewrite IH. lia.
Qed.

Lemma sort_blocks_sum (l : list Difflib.block) :
  block_sum (Difflib.sort_blocks l) = block_sum l.
Proof.
  induction l as [|x l' IH]; [reflexivity|].
  cbn [Difflib.sort_blocks fold_right]. fold (Difflib.sort_blocks l').
  rewrite insert_block_sum, IH. reflexivity.
Qed.

Lemma collapse_sum (l : list Difflib.block) (i1 j1 k1 : nat) :
  block_sum (Difflib.collapse i1 j1 k1 l) = k1 + block_sum l.
Proof.
  revert i1 j1 k1. induction l as [|[[i2 j2] k2] l' IH]; intros i1 j1 k1;
    cbn [Difflib.collapse].
  - destruct (k1 =? 0) eqn:E; cbn; [apply Nat.eqb_eq in E|]; lia.
  - destruct ((i1 + k1 =? i2) && (j1 + k1 =? j2)).
    + rewrite IH. cbn [block_sum fold_right snd]. fold (block_sum l'). lia.
    + rewrite block_sum_app, IH. cbn [block_sum fold_right snd]. fold (block_sum l').
      destruct (k1 =? 0) eqn:E; cbn; [apply Nat.eqb_eq in E|]; lia.
Qed.

(** The matching blocks cover no more characters than the shorter text has. *)
Lemma matching_blocks_sum :
  block_sum (Difflib.get_matching_blocks a b) <= Nat.min (length a) (length b).
Proof.
  unfold Difflib.get_matching_blocks. rewrite block_sum_app, collapse_sum, sort_blocks_sum.
  pose proof (blocks_loop_sum (length a + length b + 1)
                [(0, length a, 0, length b)] []) as H.
  cbn [block_sum fold_right snd queue_room range_room] in *.
  rewrite !Nat.sub_0_r in H. specialize (H ltac:(repeat constructor; lia)). lia.
Qed.

Lemma ratio_bounds : (0 <= Difflib.ratio a b <= 1)%Q.
Proof.
  unfold Difflib.ratio. fold (block_sum (Difflib.get_matching_blocks a b)).
  pose proof matching_blocks_sum as H.
  set (matches := block_sum (Difflib.get_matching_blocks a b)) in *.
  unfold Difflib.calculate_ratio.
  destruct (length a + length b) as [|n] eqn:E.
  - split; unfold Qle; cbn; lia.
  - assert (Hp : Zpos (Pos.of_nat (S n)) = Z.of_nat (S n)).
    { rewrite <- positive_nat_Z, Nat2Pos.id by discriminate. reflexivity. }
    split; unfold Qle; cbn [Qnum Qden]; rewrite ?Hp; lia.
Qed.

End RatioBounds.

Section Similarity.

Context {U : unicode}.

(** X12.  The similarity of two texts lies between 0 and 1. *)
Theorem compare_bounds (a b : str) : (0 <= compare a b <= 1)%Q.
Proof. apply ratio_bounds. Qed.

End Similarity.

Section ResolverOutcomes.

Context {U : unicode}.

(** ** More on the fuzzy section resolver *)

Lemma max_from_In (A : Type) (key : A -> Q) (xs : list A) (best : A) :
  In (max_from key best xs) (best :: xs).
Proof.
  revert best. induction xs as [|x xs' IH]; intros best; cbn [max_from].
  - now left.
  - destruct (IH (if Qltb (key best) (key x) then x else best)) as [H|H].
    + destruct (Qltb (key best) (key x)); rewrite <- H; cbn; auto.
    + right. now right.
Qed.

Lemma get_Some_In_pair (k v : str) (d : OrderedDict.t) :
  OrderedDict.get k d = Some v -> In (k, v) d.
Proof.
  induction d as [|[k' v'] d' IH]; cbn [OrderedDict.get]; [discriminate|].
  destruct (PyStr.eqb k k') eqn:E.
  - apply eqb_spec in E. subst k'. intros [= ->]. now left.
  - intros H. right. now apply IH.
Qed.

(** The label that [find_secton] settles on does not depend on the
    threshold. *)
Lemma find_secton_choice (name : str) (sections : OrderedDict.t) :
  sections <> [] ->
  exists title body,
    In (title, body) sections
    /\ forall min_conf,
         find_secton name sections min_conf
         = Ok (if Qltb (compare title name) min_conf then None else Some body).
Proof.
  intros Hne. destruct sections as [|[k0 v0] rest]; [contradiction|].
  set (score := fun t : str => (t, compare t name)).
  pose proof (max_from_In _ snd (map score (OrderedDict.keys rest)) (score k0)) as Hin.
  change (score k0 :: map score (OrderedDict.keys rest))
    with (map score (OrderedDict.keys ((k0, v0) :: rest))) in Hin.
  apply in_map_iff in Hin as (title & Hbest & Hin).
  destruct (In_get _ _ Hin) as [body Hg].
  exists title, body. split; [now apply get_Some_In_pair|].
  intros min_conf. unfold find_secton. cbn [OrderedDict.keys map py_max bind].
  change (fst (k0, v0), compare (fst (k0, v0)) name) with (score k0).
  change (map fst rest) with (OrderedDict.keys rest).
  change (map (fun t => (t, compare t name))) with (map score).
  rewrite <- Hbest. unfold score at 1.
  destruct (Qltb (compare title name) min_conf); [reflexivity|].
  unfold OrderedDict.getitem. now rewrite Hg.
Qed.

(** X13.  [find_secton] raises [ValueError] on the empty dictionary and
    nothing else anywhere; a body that it returns is the body of a section
    whose score reaches the threshold. *)
Theorem find_secton_outcomes (name : str) (sections : OrderedDict.t) (min_conf : Q) :
  match find_secton name sections min_conf with
  | Raise e => e = ValueError /\ sections = []
  | Ok None => sections <> []
  | Ok (Some body) =>
      exists title, In (title, body) sections
                    /\ (min_conf <= compare title name)%Q
  end.
Proof.
  destruct sections as [|entry rest]; [now split|].
  destruct (find_secton_choice name (entry :: rest)) as (title & body & Hin & H);
    [discriminate|].
  rewrite H. destruct (Qltb (compare title name) min_conf) eqn:E; [discriminate|].
  exists title. split; [exact Hin|]. now apply Qltb_ge.
Qed.

(** X14.  A section found at one threshold is found, with the same body, at
    every lower threshold. *)
Theorem find_secton_lower_threshold
        (name : str) (sections : OrderedDict.t) (low high : Q) (body : str) :
  (low <= high)%Q ->
  find_secton name sections high = Ok (Some body) ->
  find_secton name sections low = Ok (Some body).
Proof.
  intros Hle Hhigh. destruct sections as [|entry rest]; [discriminate|].
  destruct (find_secton_choice name (entry :: rest)) as (title & body' & _ & H);
    [discriminate|].
  rewrite H in *.
  destruct (Qltb (compare title name) high) eqn:E; [discriminate|].
  apply Qltb_ge in E.
  assert (E' : Qltb (compare title name) low = false).
  { apply Qltb_ge. now apply Qle_trans with high. }
  now rewrite E'.
Qed.


(** X15.  With a threshold above 1 nothing is found, and with a positive
    threshold a field name that is not empty never finds the section of
    the empty label. *)
Theorem find_secton_threshold_range
        (name : str) (sections : OrderedDict.t) (min_conf : Q) (body : str) :
  find_secton name sections min_conf = Ok (Some body) ->
  (min_conf <= 1)%Q
  /\ (name <> [] -> (0 < min_conf)%Q ->
      exists title, title <> [] /\ In (title, body) sections).
Proof.
  intros Hfound. destruct sections as [|entry rest]; [discriminate|].
  destruct (find_secton_choice name (entry :: rest)) as (title & body' & Hin & H);
    [discriminate|].
  rewrite H in Hfound.
  destruct (Qltb (compare title name) min_conf) eqn:E; [discriminate|].
  injection Hfound as ->. apply Qltb_ge in E. split.
  - apply Qle_trans with (compare title name); [exact E|apply ratio_bounds].
  - intros Hname Hpos. exists title. split; [|exact Hin].
    intros ->. rewrite compare_empty_label in E by exact Hname.
    apply (Qlt_not_le _ _ Hpos). eapply Qle_trans; [exact E|].
    unfold Qle. cbn. lia.
Qed.

End ResolverOutcomes.

Section ResolverOutcomesWitness.

Local Existing Instance latin1.

Lemma find_secton_lower_threshold_witness :
  ((1 # 2) <= (9 # 10))%Q
  /\ find_secton (py "require") [(py "Requires", py "internet"); ([], [])] (9 # 10)
     = Ok (Some (py "internet"))
  /\ find_secton (py "require") [(py "Requires", py "internet"); ([], [])] (1 # 2)
     = Ok (Some (py "internet")).
Proof.
  assert (H1 : ((1 # 2) <= (9 # 10))%Q) by (unfold Qle; cbn; lia).
  assert (H2 : find_secton (py "require")
                 [(py "Requires", py "internet"); ([], [])] (9 # 10)
               = Ok (Some (py "internet"))) by (vm_compute; reflexivity).
  split; [exact H1|]. split; [exact H2|].
  apply (find_secton_lower_threshold (py "require")
           [(py "Requires", py "internet"); ([], [])]
           (1 # 2) (9 # 10) (py "internet") H1 H2).
Defined.

Lemma find_secton_threshold_range_witness :
  find_secton (py "usage") [(py "Usage", py "say hi"); ([], [])] (1 # 2)
  = Ok (Some (py "say hi"))
  /\ ((1 # 2) <= 1)%Q
  /\ (py "usage" <> [] -> (0 < (1 # 2))%Q ->
      exists title, title <> []
                    /\ In (title, py "say hi") [(py "Usage", py "say hi"); ([], [])]).
Proof.
  assert (H : find_secton (py "usage") [(py "Usage", py "say hi"); ([], [])] (1 # 2)
              = Ok (Some (py "say hi"))) by (vm_compute; reflexivity).
  split; [exact H|].
  apply (find_secton_threshold_range (py "usage")
           [(py "Usage", py "say hi"); ([], [])] (1 # 2) (py "say hi") H).
Defined.

End ResolverOutcomesWitness.

Section TitleOutcomes.

Context {U : unicode}.

(** ** More on the title resolver *)

(** X16.  [find_title_info] raises [StopIteration] on the empty dictionary
    and [KeyError] only when the dictionary has no empty label; what it
    returns beside the title is a body of the dictionary. *)
Theorem find_title_info_outcomes (sections : OrderedDict.t) (skill_name : str) :
  match find_title_info sections skill_name with
  | Raise StopIteration => sections = []
  | Raise KeyError => sections <> [] /\ OrderedDict.get [] sections = None
  | Raise ValueError => False
  | Ok (shown, body) =>
      (exists label, In (label, body) sections)
      /\ (shown = title (norm skill_name)
          \/ exists first rest, OrderedDict.keys sections = first :: rest
                                /\ shown = caps first)
  end.
Proof.
  unfold find_title_info. destruct sections as [|[k v] rest]; [reflexivity|].
  cbn [OrderedDict.keys map fst].
  destruct (Qle_bool (3 # 10) (compare (norm k) (norm skill_name))).
  - unfold OrderedDict.getitem. cbn [OrderedDict.get]. rewrite eqb_refl.
    cbn [bind]. split; [exists k; now left|]. right. eauto.
  - unfold OrderedDict.getitem.
    destruct (OrderedDict.get [] ((k, v) :: rest)) as [p|] eqn:E; cbn [bind].
    + split; [exists []; now apply get_Some_In_pair|now left].
    + split; [discriminate|reflexivity].
Qed.

(** X17.  On the section map of a document [find_title_info] raises no
    exception, whatever the document and the skill name. *)
Theorem find_title_info_on_document (readme_content skill_name : str) :
  exists sections shown body,
    extract_sections readme_content = Ok sections
    /\ find_title_info sections skill_name = Ok (shown, body).
Proof.
  destruct (find_title_info_total readme_content skill_name)
    as (sections & [shown body] & E & H).
  now exists sections, shown, body.
Qed.

Lemma norm_nonempty (x : str) : x <> [] -> norm x <> [].
Proof.
  intros H E. unfold norm in E. apply map_eq_nil in E.
  now apply lower_nonempty in E.
Qed.

(** On a map with the empty label alone the first label scores 1 against
    the empty name and 0 against any other: either way the title is the
    title-cased name. *)
Lemma find_title_info_preamble_only (preamble skill_name : str) :
  find_title_info [([], preamble)] skill_name
  = Ok (title (norm skill_name), preamble).
Proof.
  unfold find_title_info. cbn [OrderedDict.keys map fst].
  destruct skill_name as [|c rest]; [reflexivity|].
  change (norm []) with (@nil N).
  rewrite compare_empty_label by (apply norm_nonempty; discriminate).
  reflexivity.
Qed.

(** X18.  For a document without a heading line the title is the
    title-cased skill name, and the text beside it is the stripped text of
    the document. *)
Theorem find_title_info_no_heading (readme_content skill_name : str) :
  Forall (fun line => is_heading line = false) (PyStr.split nl readme_content) ->
  exists sections,
    extract_sections readme_content = Ok sections
    /\ find_title_info sections skill_name
       = Ok (title (norm skill_name),
             strip (body_text (PyStr.split nl readme_content))).
Proof.
  intros Hall. eexists. split.
  - unfold extract_sections. now apply sections_of_lines_no_heading.
  - apply find_title_info_preamble_only.
Qed.

End TitleOutcomes.

Section TitleOutcomesWitness.

Local Existing Instance latin1.

Lemma find_title_info_no_heading_witness :
  Forall (fun line => is_heading line = false)
         (PyStr.split nl (py "Tells the time" ++ [nl] ++ py "on request"))
  /\ exists sections,
    extract_sections (py "Tells the time" ++ [nl] ++ py "on request") = Ok sections
    /\ find_title_info sections (py "time-skill")
       = Ok (title (norm (py "time-skill")),
             strip (body_text (PyStr.split nl (py "Tells the time" ++ [nl]
                                                 ++ py "on request")))).
Proof.
  assert (H : Forall (fun line => is_heading line = false)
                (PyStr.split nl (py "Tells the time" ++ [nl] ++ py "on request"))).
  { vm_compute. repeat constructor. }
  split; [exact H|].
  apply (find_title_info_no_heading
           (py "Tells the time" ++ [nl] ++ py "on request") (py "time-skill") H).
Defined.

End TitleOutcomesWitness.

Section ExampleCandidates.

Context {U : unicode}.

(** ** Bullets and candidates *)

Lemma firstn_take_while (p : N -> bool) (s : str) :
  firstn (length (take_while p s)) s = take_while p s.
Proof.
  induction s as [|c s' IH]; cbn [take_while]; [reflexivity|].
  destruct (p c); cbn [length firstn]; [now rewrite IH|reflexivity].
Qed.

Lemma take_while_Forall (p : N -> bool) (s : str) :
  Forall (fun c => p c = true) (take_while p s).
Proof.
  induction s as [|c s' IH]; cbn [take_while]; [constructor|].
  destruct (p c) eqn:E; [now constructor|constructor].
Qed.

Lemma after_bullet_hit (prev : option N) (s : str) (n : nat) :
  Re.after_bullet prev s = Some n -> Forall not_nl (firstn n s).
Proof.
  unfold Re.after_bullet. destruct (Re.prev_is _ prev); [|discriminate].
  intros [= <-]. rewrite firstn_take_while.
  eapply Forall_impl; [|apply take_while_Forall].
  intros c Hc. cbn beta in Hc. unfold not_nl.
  destruct (is_nl c); [discriminate Hc|reflexivity].
Qed.

Lemma scan_after_bullet_lines (s : str) (prev : option N) (skip : nat) :
  Forall hit_on_one_line (Re.scan Re.after_bullet prev s skip).
Proof.
  revert prev skip. induction s as [|c s' IH]; intros prev skip.
  - destruct skip; cbn [Re.scan]; [|constructor].
    destruct (Re.after_bullet prev []) as [n|] eqn:E; repeat constructor.
    now apply (after_bullet_hit prev [] n).
  - destruct skip as [|k]; cbn [Re.scan]; [|apply IH].
    destruct (Re.after_bullet prev (c :: s')) as [n|] eqn:E.
    + constructor; [now apply (after_bullet_hit prev (c :: s') n)|].
      destruct n; [constructor; [exact I|]|]; apply IH.
    + constructor; [exact I|apply IH].
Qed.

Lemma findall_after_bullet_lines (s : str) :
  Forall (Forall not_nl) (Re.findall Re.after_bullet s).
Proof.
  unfold Re.findall, Re.finditer.
  pose proof (scan_after_bullet_lines s None 0) as H.
  induction H as [|p l Hp _ IH]; cbn [flat_map]; [constructor|].
  destruct p; cbn [app]; [exact IH|now constructor].
Qed.

Lemma scan_without_bullet (s : str) (prev : option N) :
  Re.prev_is is_bullet prev = false ->
  Forall (fun c => is_bullet c = false) s ->
  Re.scan Re.after_bullet prev s 0 = map Re.Lit s.
Proof.
  intros Hprev Hall. revert prev Hprev.
  induction Hall as [|c s' Hc _ IH]; intros prev Hprev;
    cbn [Re.scan map]; unfold Re.after_bullet; fold is_bullet; rewrite Hprev.
  - reflexivity.
  - f_equal. now apply IH.
Qed.

Lemma findall_without_bullet (s : str) :
  Forall (fun c => is_bullet c = false) s -> Re.findall Re.after_bullet s = [].
Proof.
  intros H. unfold Re.findall, Re.finditer.
  rewrite (scan_without_bullet s None eq_refl H). clear H.
  induction s as [|c s' IH]; [reflexivity|exact IH].
Qed.

(** What [find_examples] searches for bullets: a body of the dictionary, or
    the empty text. *)
Lemma find_examples_text (sections : OrderedDict.t) (found : list str) :
  find_examples sections = Ok found ->
  exists text,
    found = Re.findall Re.after_bullet text
    /\ (text = [] \/ exists label, In (label, text) sections).
Proof.
  unfold find_examples. intros H.
  destruct sections as [|entry rest]; [discriminate|].
  destruct (find_secton_choice (py "examples") (entry :: rest))
    as (t1 & b1 & Hin1 & H1); [discriminate|].
  destruct (find_secton_choice (py "usage") (entry :: rest))
    as (t2 & b2 & Hin2 & H2); [discriminate|].
  rewrite H1, H2 in H. cbn [bind] in H.
  destruct (Qltb (compare t1 (py "examples")) default_min_conf);
    destruct (Qltb (compare t2 (py "usage")) default_min_conf);
    cbn [py_or bind] in H;
    try destruct b1 as [|c1 b1']; try destruct b2 as [|c2 b2'];
      cbn [py_or bind] in H; injection H as <-; eauto 6.
Qed.

(** X19.  A candidate that [find_examples] returns has no newline in it,
    and a dictionary whose bodies have no hyphen and no asterisk gives no
    candidate. *)
Theorem find_examples_candidates (sections : OrderedDict.t) (found : list str) :
  find_examples sections = Ok found ->
  Forall (Forall not_nl) found
  /\ ((forall label body, In (label, body) sections ->
                          Forall (fun c => is_bullet c = false) body) ->
      found = []).
Proof.
  intros H. destruct (find_examples_text sections found H) as (text & -> & Htext).
  split; [apply findall_after_bullet_lines|].
  intros Hnone. apply findall_without_bullet.
  destruct Htext as [->|(label & Hin)]; [constructor|eauto].
Qed.

End ExampleCandidates.

Section ExampleCandidatesWitness.

Local Existing Instance latin1.

Lemma find_examples_candidates_witness :
  find_examples [(py "Usage", py "- say hi" ++ [nl] ++ py "* say bye"); ([], [])]
  = Ok [py " say hi"; py " say bye"]
  /\ Forall (Forall not_nl) [py " say hi"; py " say bye"]
  /\ ((forall label body,
         In (label, body)
            [(py "Usage", py "- say hi" ++ [nl] ++ py "* say bye"); ([], [])] ->
         Forall (fun c => is_bullet c = false) body) ->
      [py " say hi"; py " say bye"] = []).
Proof.
  assert (H : find_examples
                [(py "Usage", py "- say hi" ++ [nl] ++ py "* say bye"); ([], [])]
              = Ok [py " say hi"; py " say bye"]) by (vm_compute; reflexivity).
  split; [exact H|].
  apply (find_examples_candidates
           [(py "Usage", py "- say hi" ++ [nl] ++ py "* say bye"); ([], [])]
           [py " say hi"; py " say bye"] H).
Defined.

End ExampleCandidatesWitness.

Section ExampleShape.

Context {U : unicode}.

(** ** The shape of an example *)

Lemma split_one_of_first (q : N -> bool) (s : str) (prev : option N) :
  hd [] (fold_right
           (fun p acc =>
              match p with
              | Re.Lit c => (c :: hd [] acc) :: tl acc
              | Re.Hit _ => [] :: acc
              end)
           [[]] (Re.scan (Re.one_of q) prev s 0))
  = take_while (fun c => negb (q c)) s.
Proof.
  revert prev. induction s as [|c s' IH]; intros prev.
  - reflexivity.
  - cbn [Re.scan Re.one_of take_while]. destruct (q c); cbn [negb fold_right hd].
    + reflexivity.
    + f_equal. apply IH.
Qed.

(** The text kept by the split at the first quoting character. *)
Lemma split_quote_first (s : str) :
  hd [] (Re.split (Re.one_of is_quote) s)
  = take_while (fun c => negb (is_quote c)) s.
Proof. apply split_one_of_first. Qed.

Lemma skipn_Forall (P : N -> Prop) (n : nat) (s : str) :
  Forall P s -> Forall P (skipn n s).
Proof.
  revert s. induction n as [|n IH]; intros s H; [exact H|].
  destruct s as [|c s']; [constructor|]. cbn [skipn]. apply IH.
  now apply Forall_inv_tail in H.
Qed.

Lemma strip_by_Forall (P : N -> Prop) (p : N -> bool) (s : str) :
  Forall P s -> Forall P (strip_by p s).
Proof.
  intros H. unfold strip_by, rstrip_by, lstrip_by.
  now apply Forall_rev, drop_while_Forall, Forall_rev, drop_while_Forall.
Qed.

Lemma rstrip_by_Forall (P : N -> Prop) (p : N -> bool) (s : str) :
  Forall P s -> Forall P (rstrip_by p s).
Proof.
  intros H. unfold rstrip_by. now apply Forall_rev, drop_while_Forall, Forall_rev.
Qed.

(** Upper-casing a character keeps a property that every capital letter
    of the 7-bit range and every character from 128 on has. *)
Lemma upper_char_Forall (P : N -> Prop) :
  (forall c, is_ascii c = true -> P c -> P (ascii_upper c)) ->
  (forall u, ascii_is_upper u = true -> P u) ->
  (forall u, is_ascii u = false -> P u) ->
  forall c, P c -> Forall P (upper_char c).
Proof.
  intros Hup Hcap Hext c Hc. unfold upper_char. destruct (is_ascii c) eqn:E.
  - constructor; [now apply Hup|constructor].
  - apply Forall_forall. intros u Hu. destruct (is_ascii u) eqn:Eu.
    + apply Hcap. exact (ext_upper_ascii c u E Hu Eu).
    + now apply Hext.
Qed.

Lemma format_sent_Forall (P : N -> Prop) :
  P (chr ".") -> (forall c, P c -> Forall P (upper_char c)) ->
  forall s, Forall P s -> Forall P (format_sent s).
Proof.
  intros Hstop Hup s H. destruct s as [|c rest]; [constructor|].
  assert (Hs : c :: rest <> []) by discriminate.
  destruct (last_char_nonempty _ (caps_nonempty _ Hs)) as [d Hd].
  rewrite (format_sent_caps _ d Hd), caps_cons.
  apply Forall_cons_iff in H as [Hc Hrest].
  rewrite <- app_assoc. apply Forall_app. split; [now apply Hup|].
  apply Forall_app. split; [exact Hrest|].
  destruct (isalnum d); repeat constructor. exact Hstop.
Qed.

Lemma no_quote_upper_char (c : N) : no_quote c -> Forall no_quote (upper_char c).
Proof.
  apply upper_char_Forall; unfold no_quote, is_quote, mem; cbn [existsb];
    change dquote with 34%N; change backquote with 96%N.
  - intros d Hd H. by_ranges.
  - intros u Hu. by_ranges.
  - intros u Hu. by_ranges.
Qed.

Lemma format_sent_no_quote (s : str) :
  Forall no_quote s -> Forall no_quote (format_sent s).
Proof.
  apply format_sent_Forall; [reflexivity|apply no_quote_upper_char].
Qed.

Lemma strip_wake_words_no_quote (prefixes : list str) (example : str) :
  Forall no_quote example ->
  Forall no_quote
         (fold_left
            (fun example prefix =>
               if startswith prefix (lower example)
               then skipn (length prefix) example else example)
            prefixes example).
Proof.
  revert example. induction prefixes as [|p ps IH]; intros example H;
    cbn [fold_left]; [exact H|].
  apply IH. destruct (startswith p (lower example)); [|exact H].
  now apply skipn_Forall.
Qed.

Lemma question_mark_no_quote (inferred : bool) (example : str) :
  Forall no_quote example ->
  Forall no_quote
         (if inferred then rstrip_chars (py "?.") example ++ py "?" else example).
Proof.
  intros H. destruct inferred; [|exact H].
  apply Forall_app. split; [now apply rstrip_by_Forall|repeat constructor].
Qed.

(** X20.  An example utterance has no double quote and no backquote in it,
    and it is empty or ends in a character that is not alphanumeric. *)
Theorem parse_example_shape (example : str) :
  Forall (fun c => c <> dquote /\ c <> backquote) (parse_example example)
  /\ match last_char (parse_example example) with
     | Some c => isalnum c = false
     | None => True
     end.
Proof.
  split.
  - assert (H : Forall no_quote (parse_example example)).
    { unfold parse_example. cbv zeta.
      apply format_sent_no_quote, question_mark_no_quote, strip_by_Forall,
        strip_wake_words_no_quote.
      change (mem [dquote; backquote]) with is_quote.
      rewrite split_quote_first.
      eapply Forall_impl; [|apply take_while_Forall].
      intros c Hc. cbn beta in Hc. unfold no_quote.
      destruct (is_quote c); [discriminate Hc|reflexivity]. }
    eapply Forall_impl; [|exact H].
    intros c Hc. unfold no_quote in Hc. split; intros ->; discriminate Hc.
  - unfold parse_example. cbv zeta.
    match goal with
    | |- match last_char (format_sent ?s) with _ => _ end =>
        pose proof (format_sent_last s) as H;
        destruct (last_char (format_sent s)); [exact H|exact I]
    end.
Qed.

(** X21.  A candidate made of blanks, newlines and quoting characters only
    gives the empty example. *)
Theorem parse_example_blank (example : str) :
  Forall (fun c => is_wrapping c = true) example ->
  parse_example example = [].
Proof.
  intros H. unfold parse_example.
  assert (E : strip_chars (sp :: nl :: dquote :: py "'`") example = []).
  { unfold strip_chars, strip_by, lstrip_by.
    change (mem (sp :: nl :: dquote :: py "'`")) with is_wrapping.
    now rewrite drop_while_all. }
  rewrite E. reflexivity.
Qed.

End ExampleShape.

Section ExampleShapeWitness.

Local Existing Instance latin1.

Lemma parse_example_blank_witness :
  Forall (fun c => is_wrapping c = true) (py " '` ")
  /\ parse_example (py " '` ") = [].
Proof.
  assert (H : Forall (fun c => is_wrapping c = true) (py " '` "))
    by (repeat constructor).
  split; [exact H|]. apply (parse_example_blank (py " '` ") H).
Defined.

End ExampleShapeWitness.

Section SummaryShape.

Context {U : unicode}.

(** ** The assembler *)

Lemma find_secton_total (name : str) (sections : OrderedDict.t) (min_conf : Q) :
  sections <> [] -> exists r, find_secton name sections min_conf = Ok r.
Proof.
  intros H. destruct (find_secton_choice name sections H) as (t & b & _ & E).
  rewrite E. eauto.
Qed.

Lemma find_examples_total (sections : OrderedDict.t) :
  sections <> [] -> exists found, find_examples sections = Ok found.
Proof.
  intros H. unfold find_examples.
  destruct (find_secton_total (py "examples") sections default_min_conf H) as [r1 E1].
  destruct (find_secton_total (py "usage") sections default_min_conf H) as [r2 E2].
  rewrite E1, E2. cbn [bind].
  destruct r1 as [[|c s]|]; cbn [py_or bind]; eauto.
Qed.

(** X22.  Whatever the README, the skill name and the author, the
    assembler raises no exception; the repository address, the name and
    the user name pass through unchanged. *)
Theorem generate_summary_total (html_url name author readme : str) :
  exists s,
    generate_summary html_url name author readme = Ok s
    /\ sum_repo s = html_url
    /\ sum_name s = name
    /\ sum_github_username s = author.
Proof.
  unfold generate_summary.
  destruct (find_title_info_total readme name) as (sections & [shown body] & E & Ht).
  rewrite E. cbn [bind]. rewrite Ht. cbn [bind].
  assert (Hne : sections <> []).
  { intros ->. discriminate Ht. }
  destruct (find_secton_total (py "author") sections default_min_conf Hne) as [r1 E1].
  destruct (find_secton_total (py "description") sections default_min_conf Hne)
    as [r2 E2].
  destruct (find_examples_total sections Hne) as [r3 E3].
  destruct (find_secton_total (py "require") sections (9 # 10)%Q Hne) as [r4 E4].
  destruct (find_secton_total (py "exclude") sections (9 # 10)%Q Hne) as [r5 E5].
  rewrite E1. cbn [bind]. rewrite E2. cbn [bind]. rewrite E3. cbn [bind].
  rewrite E4. cbn [bind]. rewrite E5. cbn [bind].
  eexists. split; [reflexivity|]. cbn. auto.
Qed.

Lemma rstrip_by_last (p : N -> bool) (s : str) :
  match last_char (rstrip_by p s) with
  | Some c => p c = false
  | None => True
  end.
Proof.
  unfold rstrip_by. destruct (drop_while p (rev s)) as [|c rest] eqn:E.
  - exact I.
  - pose proof (drop_while_head p (rev s) c rest E) as Hc.
    cbn [rev]. destruct (rev rest ++ [c]) as [|d l] eqn:E2.
    + now destruct (rev rest).
    + cbn [last_char].
      assert (Hl : last (d :: l) d = c) by (rewrite <- E2; apply last_last).
      cbn [last] in Hl. destruct l; [now subst d|].
      now rewrite <- Hl in Hc.
Qed.

Lemma not_nl_upper_char (c : N) : not_nl c -> Forall not_nl (upper_char c).
Proof.
  apply upper_char_Forall; unfold not_nl, is_nl; change nl with 10%N.
  - intros d Hd H. by_ranges.
  - intros u Hu. by_ranges.
  - intros u Hu. by_ranges.
Qed.

Lemma format_sent_not_nl (s : str) : Forall not_nl s -> Forall not_nl (format_sent s).
Proof.
  apply format_sent_Forall; [reflexivity|apply not_nl_upper_char].
Qed.

Lemma newlines_to_spaces_not_nl (s : str) : Forall not_nl (newlines_to_spaces s).
Proof.
  unfold newlines_to_spaces. induction s as [|c s' IH]; cbn [map]; constructor.
  - unfold not_nl. destruct (is_nl c) eqn:E; [reflexivity|exact E].
  - exact IH.
Qed.

(** X23.  The one-line summary has no newline in it and does not end in a
    full stop. *)
Theorem generate_summary_short_desc (html_url name author readme : str) (s : summary) :
  generate_summary html_url name author readme = Ok s ->
  Forall not_nl (sum_short_desc s)
  /\ match last_char (sum_short_desc s) with
     | Some c => c <> (chr ".")
     | None => True
     end.
Proof.
  unfold generate_summary. intros H.
  destruct (extract_sections readme) as [sections|]; cbn [bind] in H; [|discriminate].
  destruct (find_title_info sections name) as [[shown body]|]; cbn [bind] in H;
    [|discriminate].
  destruct (find_secton (py "author") sections default_min_conf);
    cbn [bind] in H; [|discriminate].
  destruct (find_secton (py "description") sections default_min_conf);
    cbn [bind] in H; [|discriminate].
  destruct (find_examples sections); cbn [bind] in H; [|discriminate].
  destruct (find_secton (py "require") sections (9 # 10)%Q);
    cbn [bind] in H; [|discriminate].
  destruct (find_secton (py "exclude") sections (9 # 10)%Q);
    cbn [bind] in H; [|discriminate].
  injection H as <-. cbn [sum_short_desc]. split.
  - apply rstrip_by_Forall, format_sent_not_nl.
    apply parse_whitespace_no_blank_line, not_nl_no_double_newline,
      newlines_to_spaces_not_nl.
  - unfold rstrip_chars.
    match goal with
    | |- match last_char (rstrip_by ?p ?t) with _ => _ end =>
        pose proof (rstrip_by_last p t) as Hl;
        destruct (last_char (rstrip_by p t)) as [c|]; [|exact I]
    end.
    intros ->. discriminate Hl.
Qed.

End SummaryShape.

Section SummaryShapeWitness.

Local Existing Instance latin1.

Lemma generate_summary_short_desc_witness :
  generate_summary (py "url") (py "time-skill") (py "bob")
                   (py "# Time skill" ++ [nl] ++ py "tells the" ++ [nl] ++ py "time.")
  = Ok {| sum_repo := py "url"; sum_title := py "Time skill";
          sum_name := py "time-skill"; sum_author := py "Bob";
          sum_github_username := py "bob";
          sum_short_desc := py "Tells the time";
          sum_description := []; sum_examples := [];
          sum_requires := []; sum_excludes := [] |}
  /\ Forall not_nl (py "Tells the time")
  /\ match last_char (py "Tells the time") with
     | Some c => c <> (chr ".")
     | None => True
     end.
Proof.
  assert (H : generate_summary (py "url") (py "time-skill") (py "bob")
                (py "# Time skill" ++ [nl] ++ py "tells the" ++ [nl] ++ py "time.")
              = Ok {| sum_repo := py "url"; sum_title := py "Time skill";
                      sum_name := py "time-skill"; sum_author := py "Bob";
                      sum_github_username := py "bob";
                      sum_short_desc := py "Tells the time";
                      sum_description := []; sum_examples := [];
                      sum_requires := []; sum_excludes := [] |})
    by (vm_compute; reflexivity).
  split; [exact H|].
  apply (generate_summary_short_desc _ _ _ _ _ H).
Defined.

End SummaryShapeWitness.

Section SummaryFields.

Context {U : unicode}.

Lemma split_blank_from_tokens (s word : str) :
  Forall (fun c => isspace c = false) word ->
  Forall is_token (split_blank_from word s).
Proof.
  revert word. induction s as [|c s' IH]; intros word Hw; cbn [split_blank_from].
  - destruct word as [|d word']; [constructor|]. repeat constructor.
    + intros E. apply (f_equal (@length _)) in E.
      rewrite length_rev in E. discriminate E.
    + now apply Forall_rev.
  - destruct (isspace c) eqn:Ec.
    + destruct word as [|d word']; [apply IH; constructor|].
      constructor; [|apply IH; constructor]. split.
      * intros E. apply (f_equal (@length _)) in E.
        rewrite length_rev in E. discriminate E.
      * now apply Forall_rev.
    + apply IH. now constructor.
Qed.

Lemma split_blank_from_concat (s word : str) :
  concat (split_blank_from word s)
  = rev word ++ filter (fun c => negb (isspace c)) s.
Proof.
  revert word. induction s as [|c s' IH]; intros word;
    cbn [split_blank_from filter].
  - destruct word; cbn [concat]; now rewrite ?app_nil_r.
  - destruct (isspace c) eqn:Ec; cbn [negb].
    + destruct word as [|d word']; cbn [concat]; now rewrite IH.
    + rewrite IH. cbn [rev]. now rewrite <- app_assoc.
Qed.

(** X24.  The requirements and the exclusions of a summary are tokens:
    none is empty and none has a blank in it. *)
Theorem generate_summary_tokens (html_url name author readme : str) (s : summary) :
  generate_summary html_url name author readme = Ok s ->
  Forall is_token (sum_requires s) /\ Forall is_token (sum_excludes s).
Proof.
  unfold generate_summary. intros H.
  destruct (extract_sections readme) as [sections|]; cbn [bind] in H; [|discriminate].
  destruct (find_title_info sections name) as [[shown body]|]; cbn [bind] in H;
    [|discriminate].
  destruct (find_secton (py "author") sections default_min_conf);
    cbn [bind] in H; [|discriminate].
  destruct (find_secton (py "description") sections default_min_conf);
    cbn [bind] in H; [|discriminate].
  destruct (find_examples sections); cbn [bind] in H; [|discriminate].
  destruct (find_secton (py "require") sections (9 # 10)%Q);
    cbn [bind] in H; [|discriminate].
  destruct (find_secton (py "exclude") sections (9 # 10)%Q);
    cbn [bind] in H; [|discriminate].
  injection H as <-. cbn [sum_requires sum_excludes].
  split; apply split_blank_from_tokens; constructor.
Qed.


(** Splitting at blanks loses nothing but the blanks: the tokens, put
    together, are the text without its blank characters. *)
Lemma split_blank_concat (s : str) :
  concat (split_blank s) = filter (fun c => negb (isspace c)) s
  /\ Forall is_token (split_blank s).
Proof.
  split.
  - apply (split_blank_from_concat s []).
  - apply split_blank_from_tokens. constructor.
Qed.

(** X25.  For a README without a heading line the summary falls back on
    the skill entry: the title is the title-cased name, the author the
    capitalised user name, the one-line summary comes from the whole text,
    and the description, the examples, the requirements and the exclusions
    are empty. *)
Theorem generate_summary_no_heading (html_url name author readme : str) :
  Forall (fun line => is_heading line = false) (PyStr.split nl readme) ->
  generate_summary html_url name author readme
  = Ok {| sum_repo := html_url;
          sum_title := title (norm name);
          sum_name := name;
          sum_author := caps author;
          sum_github_username := author;
          sum_short_desc :=
            rstrip_chars (py ".")
              (format_sent
                 (parse_whitespace
                    (newlines_to_spaces
                       (strip (body_text (PyStr.split nl readme))))));
          sum_description := [];
          sum_examples := [];
          sum_requires := [];
          sum_excludes := [] |}.
Proof.
  intros Hall. unfold generate_summary, extract_sections.
  rewrite (sections_of_lines_no_heading _ Hall). cbn [bind].
  rewrite find_title_info_preamble_only. cbn [bind].
  unfold find_examples.
  rewrite !find_secton_preamble_only by (discriminate || reflexivity).
  reflexivity.
Qed.

End SummaryFields.

Section SummaryFieldsWitness.

Local Existing Instance latin1.

Lemma generate_summary_tokens_witness :
  generate_summary (py "url") (py "time-skill") (py "bob")
                   (py "# Requires" ++ [nl] ++ py "internet" ++ [nl] ++ py "  pairing")
  = Ok {| sum_repo := py "url"; sum_title := py "Time Skill";
          sum_name := py "time-skill"; sum_author := py "Bob";
          sum_github_username := py "bob";
          sum_short_desc := []; sum_description := []; sum_examples := [];
          sum_requires := [py "internet"; py "pairing"]; sum_excludes := [] |}
  /\ Forall is_token [py "internet"; py "pairing"]
  /\ Forall is_token [].
Proof.
  assert (H : generate_summary (py "url") (py "time-skill") (py "bob")
                (py "# Requires" ++ [nl] ++ py "internet" ++ [nl] ++ py "  pairing")
              = Ok {| sum_repo := py "url"; sum_title := py "Time Skill";
                      sum_name := py "time-skill"; sum_author := py "Bob";
                      sum_github_username := py "bob";
                      sum_short_desc := []; sum_description := [];
                      sum_examples := [];
                      sum_requires := [py "internet"; py "pairing"];
                      sum_excludes := [] |})
    by (vm_compute; reflexivity).
  split; [exact H|].
  apply (generate_summary_tokens _ _ _ _ _ H).
Defined.

Lemma generate_summary_no_heading_witness :
  Forall (fun line => is_heading line = false)
         (PyStr.split nl (py "tells the" ++ [nl] ++ py "time."))
  /\ generate_summary (py "url") (py "time-skill") (py "bob")
                      (py "tells the" ++ [nl] ++ py "time.")
     = Ok {| sum_repo := py "url";
             sum_title := title (norm (py "time-skill"));
             sum_name := py "time-skill";
             sum_author := caps (py "bob");
             sum_github_username := py "bob";
             sum_short_desc :=
               rstrip_chars (py ".")
                 (format_sent
                    (parse_whitespace
                       (newlines_to_spaces
                          (strip (body_text
                                    (PyStr.split nl (py "tells the" ++ [nl]
                                                       ++ py "time.")))))));
             sum_description := [];
             sum_examples := [];
             sum_requires := [];
             sum_excludes := [] |}.
Proof.
  assert (H : Forall (fun line => is_heading line = false)
                (PyStr.split nl (py "tells the" ++ [nl] ++ py "time."))).
  { vm_compute. repeat constructor. }
  split; [exact H|].
  apply (generate_summary_no_heading (py "url") (py "time-skill") (py "bob")
           (py "tells the" ++ [nl] ++ py "time.") H).
Defined.

End SummaryFieldsWitness.

Section CaseAndHyphens.

Context {U : unicode}.

(** ** Case and hyphens *)

Lemma norm_ascii (x : str) :
  all_ascii x ->
  norm x = map (fun c => if N.eqb (ascii_lower c) (chr "-") then sp else ascii_lower c) x.
Proof. intros H. unfold norm. rewrite lower_ascii by exact H. apply map_map. Qed.

Lemma all_ascii_norm (x : str) : all_ascii x -> all_ascii (norm x).
Proof.
  intros H. rewrite norm_ascii by exact H.
  induction H as [|c x' Hc _ IH]; cbn [map]; constructor; [|exact IH].
  change (chr "-") with 45%N. change sp with 32%N. by_ranges.
Qed.

Lemma norm_upper (x : str) : all_ascii x -> norm (upper x) = norm x.
Proof. intros H. unfold norm. now rewrite lower_upper_ascii. Qed.

Lemma norm_twice (x : str) : all_ascii x -> norm (norm x) = norm x.
Proof.
  intros H. rewrite (norm_ascii (norm x)) by now apply all_ascii_norm.
  rewrite norm_ascii by exact H. rewrite map_map. apply map_ext. intros c.
  change (chr "-") with 45%N. change sp with 32%N. by_ranges.
Qed.

Lemma norm_no_hyphen (x : str) : ~ In (chr "-") (norm x).
Proof.
  unfold norm. intros H. apply in_map_iff in H as (c & Hc & _).
  destruct (N.eqb c (chr "-")) eqn:E; [discriminate Hc|].
  apply N.eqb_neq in E. now apply E.
Qed.

(** X26.  For a name of the 7-bit range neither resolver tells the name
    from its upper-cased form, and the normal form of the name is reached
    in one step; the normal form of any name has no hyphen in it. *)
Theorem resolvers_ignore_case
        (name : str) (sections : OrderedDict.t) (min_conf : Q) :
  all_ascii name ->
  find_secton (upper name) sections min_conf = find_secton name sections min_conf
  /\ find_title_info sections (upper name) = find_title_info sections name
  /\ norm (norm name) = norm name
  /\ (forall x, ~ In (chr "-") (norm x)).
Proof.
  intros Hname. split; [|split; [|split]].
  - unfold find_secton. f_equal. f_equal. apply map_ext. intros t.
    f_equal. now apply compare_ignores_case.
  - unfold find_title_info. now rewrite norm_upper.
  - now apply norm_twice.
  - apply norm_no_hyphen.
Qed.

End CaseAndHyphens.

Section CaseAndHyphensWitness.

Local Existing Instance latin1.

Lemma resolvers_ignore_case_witness :
  all_ascii (py "Usage")
  /\ find_secton (upper (py "Usage")) [(py "usage", py "- say hi"); ([], [])] (1 # 2)%Q
     = find_secton (py "Usage") [(py "usage", py "- say hi"); ([], [])] (1 # 2)%Q
  /\ find_title_info [(py "usage", py "- say hi"); ([], [])] (upper (py "Usage"))
     = find_title_info [(py "usage", py "- say hi"); ([], [])] (py "Usage")
  /\ norm (norm (py "Usage")) = norm (py "Usage")
  /\ (forall x, ~ In (chr "-") (norm x)).
Proof.
  assert (H : all_ascii (py "Usage")) by (repeat constructor).
  split; [exact H|].
  apply (resolvers_ignore_case (py "Usage") [(py "usage", py "- say hi"); ([], [])]
                               (1 # 2)%Q H).
Defined.

End CaseAndHyphensWitness.

(** ** Texts beyond the 7-bit range

    The program evaluated, with the database up to 255, on texts that
    have a no-break space, an accented letter or a sharp s in them. *)

Section AccentedTexts.

Local Existing Instance latin1.

(** A no-break space is a blank: it is stripped from a line before the
    line is tested for a heading, from a label and from a body, and it
    separates tokens. *)
Example no_break_space_is_blank :
  strip (nbsp :: py "# Title") = py "# Title"
  /\ extract_sections (nbsp :: py "# Title" ++ [nl] ++ py "body")
     = Ok [(py "Title", py "body"); ([], [])]
  /\ extract_sections (py "# Use" ++ [nbsp; nl] ++ py "one" ++ [nl]
                        ++ py "# Use" ++ [nbsp; nl] ++ py "two")
     = Ok [(py "Use", py "two"); ([], [])]
  /\ extract_sections (py "#" ++ [nl] ++ py "x" ++ [nbsp])
     = Ok [([], py "x")]
  /\ extract_sections (py "x" ++ [nbsp]) = Ok [([], py "x")]
  /\ split_blank (py "a" ++ [nbsp] ++ py "b") = [py "a"; py "b"].
Proof. repeat split; vm_compute; reflexivity. Qed.

(** An accented letter is alphanumeric and has an upper case, and the
    upper case of the sharp s has two characters. *)
Example format_sent_accented :
  format_sent (py "caf" ++ [e_acute]) = py "Caf" ++ [e_acute] ++ py "."
  /\ format_sent [sharp_s] = py "SS."
  /\ format_sent (e_acute :: py "t" ++ [e_acute] ++ py "?")
     = capital_e_acute :: py "t" ++ [e_acute] ++ py "?"
  /\ caps (e_acute :: py "mile") = capital_e_acute :: py "mile"
  /\ upper [sharp_s] = py "SS"
  /\ lower [capital_e_acute] = [e_acute]
  /\ title (py "m" ++ [e_acute] ++ py "t" ++ [e_acute] ++ py "o")
     = py "M" ++ [e_acute] ++ py "t" ++ [e_acute] ++ py "o".
Proof. repeat split; vm_compute; reflexivity. Qed.

(** The lookup does not tell the accented capital from the small letter;
    the sharp s, whose upper case is "SS" of which the lower case is "ss",
    is told from its upper-cased form. *)
Example find_secton_accented :
  compare [capital_e_acute] [e_acute] = (2 # 2)%Q
  /\ find_secton [e_acute] [([capital_e_acute], py "body"); ([], [])] (1 # 2)%Q
     = Ok (Some (py "body"))
  /\ find_secton [sharp_s] [([sharp_s], py "body"); ([], [])] (1 # 2)%Q
     = Ok (Some (py "body"))
  /\ find_secton (upper [sharp_s]) [([sharp_s], py "body"); ([], [])] (1 # 2)%Q
     = Ok None.
Proof. repeat split; vm_compute; reflexivity. Qed.

Example find_title_info_accented :
  find_title_info [(e_acute :: py "t" ++ [e_acute], py "b"); ([], py "p")]
                  (e_acute :: py "t" ++ [e_acute])
  = Ok (capital_e_acute :: py "t" ++ [e_acute], py "b")
  /\ find_title_info [(py "Overview", py "b"); ([], py "p")]
                     (py "m" ++ [e_acute] ++ py "t" ++ [e_acute] ++ py "o")
     = Ok (py "M" ++ [e_acute] ++ py "t" ++ [e_acute] ++ py "o", py "p").
Proof. repeat split; vm_compute; reflexivity. Qed.

Example generate_summary_accented :
  generate_summary (py "url") (py "m" ++ [e_acute] ++ py "t" ++ [e_acute] ++ py "o")
                   (e_acute :: py "mile")
                   (nbsp :: py "# Overview" ++ [nl] ++ py "caf" ++ [e_acute; nbsp; nl]
                      ++ py "# Require" ++ [nl] ++ py "a" ++ [nbsp] ++ py "b")
  = Ok {| sum_repo := py "url";
          sum_title := py "M" ++ [e_acute] ++ py "t" ++ [e_acute] ++ py "o";
          sum_name := py "m" ++ [e_acute] ++ py "t" ++ [e_acute] ++ py "o";
          sum_author := capital_e_acute :: py "mile";
          sum_github_username := e_acute :: py "mile";
          sum_short_desc := [];
          sum_description := [];
          sum_examples := [];
          sum_requires := [py "a"; py "b"];
          sum_excludes := [] |}.
Proof. vm_compute. reflexivity. Qed.

End AccentedTexts.
